(** * Phonebook application: the prefix trie and the contact-book handlers

    A shallow embedding of [src/app.py].

    - Python strings are modelled as [string]; the model covers names and
      queries written in 7-bit ASCII, for which [str.lower()] is the
      character-wise map [lower_char].
    - A [TrieNode]'s [children] dict is an insertion-ordered dictionary with
      unique keys; it is modelled as an association list so that the
      iteration order of [dict.items()] is visible.
    - The module-level dictionaries [contacts], [call_log] and
      [relationships] are modelled as finite maps carried in an explicit
      [State]; every handler is a function from the state and its request to
      the new state and the response.
    - [save_data] rewrites two files from the state and has no effect on the
      in-memory structures; the snapshots are not modelled. *)

From Stdlib Require Import Ascii String List Bool Arith Lia.
From stdpp Require Import base option list strings gmap.

Open Scope string_scope.
Open Scope list_scope.

#[local] Set Warnings "-clear-no-such-hyp".

(** ** Strings *)

(** [c.lower()] for one ASCII character. *)
Definition lower_char (c : ascii) : ascii :=
  let n := nat_of_ascii c in
  if (65 <=? n)%nat && (n <=? 90)%nat then ascii_of_nat (n + 32) else c.

(** [s.lower()]. *)
Fixpoint lower (s : string) : string :=
  match s with
  | EmptyString => EmptyString
  | String c s' => String (lower_char c) (lower s')
  end.

(** [p] is a prefix of [s], as [s.startswith(p)] decides it. *)
Fixpoint starts_with (p s : string) : bool :=
  match p, s with
  | EmptyString, _ => true
  | String a p', String b s' => if decide (a = b) then starts_with p' s' else false
  | String _ _, EmptyString => false
  end.

(** [P] is a case-insensitive prefix of [N]. *)
Definition ci_prefix (P N : string) : bool := starts_with (lower P) (lower N).

(** ** Insertion-ordered dictionaries keyed by a character *)

Module Dict.
Section Dict.
Context {V : Type}.

(** [d.get(c)]; [c in d] is [is_Some (get c d)]. *)
Fixpoint get (c : ascii) (d : list (ascii * V)) : option V :=
  match d with
  | [] => None
  | (k, v) :: d' => if decide (k = c) then Some v else get c d'
  end.

(** [d[c] = v]: an existing key keeps its position, a new key goes last. *)
Fixpoint set (c : ascii) (v : V) (d : list (ascii * V)) : list (ascii * V) :=
  match d with
  | [] => [(c, v)]
  | (k, u) :: d' => if decide (k = c) then (k, v) :: d' else (k, u) :: set c v d'
  end.

(** [list(d.keys())]. *)
Definition keys (d : list (ascii * V)) : list ascii := map fst d.
End Dict.
End Dict.

(** ** The trie *)

(** [class TrieNode]. *)
#[local] Unset Elimination Schemes.
Inductive TrieNode : Type :=
| Node (is_end_of_word : bool) (children : list (ascii * TrieNode)).
#[local] Set Elimination Schemes.

Definition is_end_of_word (n : TrieNode) : bool :=
match n with Node e _ => e end.

Definition children (n : TrieNode) : list (ascii * TrieNode) :=
match n with Node _ d => d end.

(** [TrieNode()]. *)
Definition new_node : TrieNode := Node false [].

Module Trie.

(** [class Trie]. *)
Record t : Type := Make { root : TrieNode }.

(** [Trie()]. *)
Definition new : t := Make new_node.

(** The loop of [insert], started at [node] on the characters [word]: the
    child for the next character is created when missing, the loop goes on
    in that child, and the last node reached is marked. *)
Fixpoint insert_loop (node : TrieNode) (word : string) : TrieNode :=
  match word with
  | EmptyString => Node true (children node)
  | String char rest =>
      let child :=
        match Dict.get char (children node) with
        | None => new_node
        | Some n => n
        end in
      Node (is_end_of_word node)
           (Dict.set char (insert_loop child rest) (children node))
  end.

(** [Trie.insert(self, word)]. *)
Definition insert (self : t) (word : string) : t :=
  Make (insert_loop (root self) (lower word)).

(** [Trie._collect_all_words(self, node, prefix)]. *)
Fixpoint _collect_all_words (node : TrieNode) (prefix : string) : list string :=
  match node with
  | Node e kids =>
      (if e then [prefix] else []) ++
      flat_map (fun '(char, child_node) =>
                  _collect_all_words child_node (prefix +:+ String char EmptyString))
               kids
  end.

(** The loop of [search] over the characters [chars], ending in the call
    of [_collect_all_words] with the caller's [prefix]. *)
Fixpoint search_loop (node : TrieNode) (chars prefix : string) : list string :=
  match chars with
  | EmptyString => _collect_all_words node prefix
  | String char rest =>
      match Dict.get char (children node) with
      | None => []
      | Some child => search_loop child rest prefix
      end
  end.

(** [Trie.search(self, prefix)]. *)
Definition search (self : t) (prefix : string) : list string :=
  search_loop (root self) (lower prefix) prefix.

(** The trie after the calls [insert(w)] for [w] in [words], in order. *)
Definition insert_all (self : t) (words : list string) : t :=
  fold_left insert words self.

End Trie.

(** ** The insertion history read as a tree

    What the trie looks like, and in which order its words come out, stated
    on the list of words inserted so far and without reference to the code
    above. *)

(** First characters of the non-empty words, in order. *)
Definition heads (ws : list string) : list ascii :=
  flat_map (fun w => match w with EmptyString => [] | String c _ => [c] end) ws.

(** The words that start with [c], without that character, in order. *)
Definition tails (c : ascii) (ws : list string) : list string :=
  flat_map (fun w => match w with
                     | EmptyString => []
                     | String a r => if decide (a = c) then [r] else []
                     end) ws.

(** The words that start with [p], without that prefix, in order. *)
Fixpoint strip (p : string) (ws : list string) : list string :=
  match p with
  | EmptyString => ws
  | String c p' => strip p' (tails c ws)
  end.

(** Each character once, in the order of its first occurrence. *)
Definition first_seen (l : list ascii) : list ascii :=
  fold_left (fun seen c => if decide (c ∈ seen) then seen else seen ++ [c]) l [].

(** Length of the longest word. *)
Definition depth (ws : list string) : nat :=
  foldr (fun w d => Nat.max (String.length w) d) 0 ws.

(** The trie of an insertion history, [fuel] levels deep. *)
Fixpoint tree_of (fuel : nat) (ws : list string) : TrieNode :=
  Node (bool_decide (EmptyString ∈ ws))
       match fuel with
       | 0 => []
       | S n => map (fun c => (c, tree_of n (tails c ws))) (first_seen (heads ws))
       end.

(** Pre-order listing of an insertion history: the empty word first when it
    was inserted, then, for each first character in the order in which it
    first occurred, the listing of the words that start with it. *)
Fixpoint preorder (fuel : nat) (ws : list string) : list string :=
  (if bool_decide (EmptyString ∈ ws) then [EmptyString] else []) ++
  match fuel with
  | 0 => []
  | S n => flat_map (fun c => map (String c) (preorder n (tails c ws)))
                    (first_seen (heads ws))
  end.

(** The order of [search(P)]'s result after the insertions [names]. *)
Definition search_order (names : list string) (P : string) : list string :=
  let ws := strip (lower P) (map lower names) in
  map (String.append P) (preorder (depth ws) ws).

(** ** Validation *)

Definition is_digit (c : ascii) : bool :=
  let n := nat_of_ascii c in (48 <=? n)%nat && (n <=? 57)%nat.

Definition is_letter (c : ascii) : bool :=
  let n := nat_of_ascii c in
  ((65 <=? n)%nat && (n <=? 90)%nat) || ((97 <=? n)%nat && (n <=? 122)%nat).

Fixpoint all_chars (f : ascii -> bool) (s : string) : bool :=
  match s with
  | EmptyString => true
  | String c s' => f c && all_chars f s'
  end.

(** [s.isdigit()]: at least one character, and all of them digits. *)
Definition isdigit (s : string) : bool :=
  match s with
  | EmptyString => false
  | _ => all_chars is_digit s
  end.

(** [validate_phone(phone)]. *)
Definition validate_phone (phone : string) : bool :=
  isdigit phone && (10 <=? String.length phone)%nat.

(** The longest run of characters of the class [f] at the head of [s], and
    what follows it. *)
Fixpoint span (f : ascii -> bool) (s : string) : string * string :=
  match s with
  | EmptyString => (EmptyString, EmptyString)
  | String c s' =>
      if f c then let '(run, rest) := span f s' in (String c run, rest)
      else (EmptyString, s)
  end.

(** The character classes of [email_regex]. *)
Definition local_class (c : ascii) : bool :=
  is_letter c || is_digit c ||
  bool_decide (c = "_"%char) || bool_decide (c = "."%char) ||
  bool_decide (c = "+"%char) || bool_decide (c = "-"%char).

Definition domain_class (c : ascii) : bool :=
  is_letter c || is_digit c || bool_decide (c = "-"%char).

Definition suffix_class (c : ascii) : bool :=
  domain_class c || bool_decide (c = "."%char).

(** [validate_email(email)]: [re.match] of
    [^[a-zA-Z0-9_.+-]+@[a-zA-Z0-9-]+\.[a-zA-Z0-9-.]+$]. Each class excludes
    the character that must follow it, so every run is the longest one; [$]
    accepts the end of the string and also a last line feed. *)
Definition validate_email (email : string) : bool :=
  let '(loc, r1) := span local_class email in
  match loc, r1 with
  | String _ _, String "@" r2 =>
      let '(dom, r3) := span domain_class r2 in
      match dom, r3 with
      | String _ _, String "." r4 =>
          let '(suf, r5) := span suffix_class r4 in
          match suf with
          | String _ _ =>
              bool_decide (r5 = EmptyString) ||
              bool_decide (r5 = String "010" EmptyString)
          | EmptyString => false
          end
      | _, _ => false
      end
  | _, _ => false
  end.

(** ** The data model *)

(** One value of the [contacts] dictionary. *)
Record Contact : Type := mkContact {
  phone : string;
  email : string;
  address : string;
  group : string;
  favorite : bool
}.

(** The module-level state: [contacts], [call_log], [relationships] and
    [trie]. A [defaultdict] is a map read with a default. *)
Record State : Type := mkState {
  contacts : gmap string Contact;
  call_log : gmap string (list string);
  relationships : gmap string (gset string);
  trie : Trie.t
}.

(** The JSON body of a POST or PUT request, read with [data.get]: a field is
    [None] when the key is missing. The string fields carry strings and
    [favorite] a boolean, as the data model has them. *)
Record Json : Type := mkJson {
  get_name : option string;
  get_phone : option string;
  get_email : option string;
  get_address : option string;
  get_group : option string;
  get_favorite : option bool
}.

(** What [jsonify] is given. *)
Inductive Body : Type :=
  | message (text : string)
  | error (text : string)
  | contacts_json (entries : gmap string Contact)
  | graph_json (adjacency : gmap string (list string))
  | call_log_json (log : gmap string (list string)).

(** A response: the body and the status code. *)
Definition Response : Type := Body * nat.

Definition status (r : Response) : nat := snd r.
Definition body (r : Response) : Body := fst r.

(** Python's truth value of an optional string: [None] and [''] are false. *)
Definition truthy (v : option string) : bool :=
  match v with
  | Some (String _ _) => true
  | _ => false
  end.

(** The string held by a field that passed a truth test. *)
Definition str (v : option string) : string := default EmptyString v.

(** [d[key]] on a [defaultdict(set)] and on a [defaultdict(list)]. *)
Definition neighbors (g : gmap string (gset string)) (key : string) : gset string :=
  default ∅ (g !! key).

Definition calls (log : gmap string (list string)) (key : string) : list string :=
  default [] (log !! key).

(** ** The handlers *)

(** [POST /contacts]. *)
Definition add_contact (st : State) (data : Json) : State * Response :=
  let name := get_name data in
  let phone := get_phone data in
  let email := default EmptyString (get_email data) in
  let address := default EmptyString (get_address data) in
  let group := default EmptyString (get_group data) in
  let favorite := default false (get_favorite data) in
  if negb (truthy name) || negb (truthy phone) then
    (st, (error "Name and phone number are required", 400))
  else if negb (validate_phone (str phone)) then
    (st, (error "Invalid phone number format", 400))
  else if negb (bool_decide (email = EmptyString)) && negb (validate_email email) then
    (st, (error "Invalid email format", 400))
  else
    (mkState (<[lower (str name) := mkContact (str phone) email address group favorite]>
                (contacts st))
             (call_log st)
             (relationships st)
             (Trie.insert (trie st) (str name)),
     (message "Contact added successfully", 201)).

(** The assignments of [update_contact] to the record [contact]. *)
Definition apply_update (contact : Contact) (data : Json) : Contact :=
  let contact :=
    if truthy (get_phone data)
    then mkContact (str (get_phone data)) (email contact) (address contact)
                   (group contact) (favorite contact)
    else contact in
  let contact :=
    if truthy (get_email data)
    then mkContact (phone contact) (str (get_email data)) (address contact)
                   (group contact) (favorite contact)
    else contact in
  let contact :=
    if truthy (get_address data)
    then mkContact (phone contact) (email contact) (str (get_address data))
                   (group contact) (favorite contact)
    else contact in
  let contact :=
    if truthy (get_group data)
    then mkContact (phone contact) (email contact) (address contact)
                   (str (get_group data)) (favorite contact)
    else contact in
  match get_favorite data with
  | Some fav => mkContact (phone contact) (email contact) (address contact)
                          (group contact) fav
  | None => contact
  end.

(** [PUT /contacts/<name>]. *)
Definition update_contact (st : State) (name : string) (data : Json)
  : State * Response :=
  let key := lower name in
  match contacts st !! key with
  | None => (st, (error "Contact not found", 404))
  | Some contact =>
      if truthy (get_phone data) && negb (validate_phone (str (get_phone data))) then
        (st, (error "Invalid phone number format", 400))
      else if truthy (get_email data) && negb (validate_email (str (get_email data))) then
        (st, (error "Invalid email format", 400))
      else
        (mkState (<[key := apply_update contact data]> (contacts st))
                 (call_log st) (relationships st) (trie st),
         (message "Contact updated successfully", 200))
  end.

(** [DELETE /contacts/<name>]. *)
Definition delete_contact (st : State) (name : string) : State * Response :=
  let key := lower name in
  match contacts st !! key with
  | Some _ =>
      (mkState (delete key (contacts st)) (call_log st) (relationships st) (trie st),
       (message "Contact deleted successfully", 200))
  | None => (st, (error "Contact not found", 404))
  end.

(** The dict comprehension of [search_contact]: the names of [results] whose
    lowercase form is a key of [store], each with its record. *)
Definition result_contacts (store : gmap string Contact) (results : list string)
  : gmap string Contact :=
  fold_left (fun acc name =>
               match store !! lower name with
               | Some details => <[name := details]> acc
               | None => acc
               end) results ∅.

(** [GET /contacts/search]; [query] is [None] when the parameter is missing. *)
Definition search_contact (st : State) (query : option string) : State * Response :=
  let query := lower (default EmptyString query) in
  let results := Trie.search (trie st) query in
  (st, (contacts_json (result_contacts (contacts st) results), 200)).

(** [relationships[key1].add(key2)] and then [relationships[key2].add(key1)]:
    reading a [defaultdict(set)] at a missing key starts from the empty set. *)
Definition add_edge (g : gmap string (gset string)) (key1 key2 : string)
  : gmap string (gset string) :=
  let g1 := <[key1 := neighbors g key1 ∪ {[key2]}]> g in
  <[key2 := neighbors g1 key2 ∪ {[key1]}]> g1.

(** [POST /contacts/relationship/<name1>/<name2>]. *)
Definition add_relationship (st : State) (name1 name2 : string) : State * Response :=
  let key1 := lower name1 in
  let key2 := lower name2 in
  match contacts st !! key1, contacts st !! key2 with
  | Some _, Some _ =>
      (mkState (contacts st) (call_log st)
               (add_edge (relationships st) key1 key2) (trie st),
       (message ("Relationship added between " +:+ name1 +:+ " and " +:+ name2), 200))
  | _, _ => (st, (error "One or both contacts not found", 404))
  end.

(** [GET /contacts/graph]; a neighbour set is listed in an order the code
    leaves open. *)
Definition get_graph (st : State) : State * Response :=
  (st, (graph_json (elements <$> relationships st), 200)).

(** [POST /call/<name>]; [now] is the formatted time of the call. *)
Definition log_call (st : State) (name now : string) : State * Response :=
  let key := lower name in
  match contacts st !! key with
  | None => (st, (error "Contact not found", 404))
  | Some _ =>
      (mkState (contacts st) (<[key := calls (call_log st) key ++ [now]]> (call_log st))
               (relationships st) (trie st),
       (message ("Call logged for " +:+ name), 200))
  end.

(** [GET /call-log]. *)
Definition get_call_log (st : State) : State * Response :=
  (st, (call_log_json (call_log st), 200)).

(** The graph is symmetric: a neighbour of a key has that key as a neighbour. *)
Definition symmetric (g : gmap string (gset string)) : Prop :=
  forall a b : string, b ∈ neighbors g a -> a ∈ neighbors g b.

(** Every contact is indexed: a key of the store is lowercase and is found
    by [search] under each of its lowercase prefixes. *)
Definition indexed (st : State) : Prop :=
  forall k, is_Some (contacts st !! k) ->
    lower k = k /\
    forall P, lower P = P -> starts_with P k = true -> k ∈ Trie.search (trie st) P.

(** The keys of every [children] dictionary are distinct. *)
Fixpoint unique_keys (n : TrieNode) : Prop :=
  match n with
  | Node _ kids =>
      NoDup (Dict.keys kids) /\
      (fix each (l : list (ascii * TrieNode)) : Prop :=
         match l with
         | [] => True
         | (_, child) :: l' => unique_keys child /\ each l'
         end) kids
  end.

(** ** Requests and runs *)

(** The requests of the model. *)
Inductive Request : Type :=
  | POST_contacts (data : Json)
  | PUT_contacts (name : string) (data : Json)
  | DELETE_contacts (name : string)
  | GET_contacts_search (query : option string)
  | POST_contacts_relationship (name1 name2 : string)
  | GET_contacts_graph
  | POST_call (name now : string)
  | GET_call_log.

(** The routing table. *)
Definition handle (st : State) (rq : Request) : State * Response :=
  match rq with
  | POST_contacts data => add_contact st data
  | PUT_contacts name data => update_contact st name data
  | DELETE_contacts name => delete_contact st name
  | GET_contacts_search query => search_contact st query
  | POST_contacts_relationship name1 name2 => add_relationship st name1 name2
  | GET_contacts_graph => get_graph st
  | POST_call name now => log_call st name now
  | GET_call_log => get_call_log st
  end.

(** The state after a sequence of requests. *)
Definition run (st : State) (rqs : list Request) : State :=
  fold_left (fun st rq => (handle st rq).1) rqs st.

(** The state at start-up when neither file exists. *)
Definition init : State := mkState ∅ ∅ ∅ Trie.new.

(** Example requests. *)
Definition alice_data : Json :=
  mkJson (Some "Alice") (Some "1234567890") (Some "alice@example.org")
         (Some "1 Main St") None (Some true).

Definition bob_data : Json :=
  mkJson (Some "Bob") (Some "0987654321") None None None None.

Definition empty_fields : Json :=
  mkJson None (Some EmptyString) (Some EmptyString) (Some EmptyString) (Some EmptyString) (Some false).

Definition bad_phone : Json :=
  mkJson None (Some "12ab") None (Some "2 Side St") None None.

Definition with_alice : State := (add_contact init alice_data).1.

Definition with_alice_bob : State := (add_contact with_alice bob_data).1.

Definition related_and_called : State :=
  run init [POST_contacts alice_data; POST_contacts bob_data;
            POST_contacts_relationship "Alice" "Bob";
            POST_call "alice" "2024-01-01 09:00:00"].

(** ** Read-only listings *)

(** [GET /contacts]. *)
Definition get_contacts (st : State) : State * Response :=
  (st, (contacts_json (contacts st), 200)).

(** [needle in haystack] on two strings: [needle] occurs in [haystack]. *)
Fixpoint contains (needle haystack : string) : bool :=
  starts_with needle haystack ||
  match haystack with
  | EmptyString => false
  | String _ rest => contains needle rest
  end.

(** The condition of [advanced_search] on one record: each parameter that is
    given and not empty must occur in its field, the phone as it is written,
    the email and the address without regard to case. *)
Definition advanced_match (phone_arg email_arg address_arg : option string)
    (details : Contact) : bool :=
  (negb (truthy phone_arg) || contains (str phone_arg) (phone details)) &&
  (negb (truthy email_arg) || contains (lower (str email_arg)) (lower (email details))) &&
  (negb (truthy address_arg) ||
   contains (lower (str address_arg)) (lower (address details))).

(** [GET /contacts/advanced-search]; a parameter is [None] when missing. *)
Definition advanced_search (st : State) (phone_arg email_arg address_arg : option string)
  : State * Response :=
  (st, (contacts_json
          (filter (fun kd => advanced_match phone_arg email_arg address_arg kd.2 = true)
                  (contacts st)), 200)).


(** ** The two files *)

(** [contacts.json] and [call_log.json]: [None] when the file does not
    exist, otherwise the JSON object it holds, of the shape that [save_data]
    writes. *)
Record Files : Type := mkFiles {
  contacts_file : option (gmap string Contact);
  call_log_file : option (gmap string (list string))
}.

(** [load_data()]: the two dictionaries read from the files; when either
    [open] raises [FileNotFoundError] both are reset to empty, also when
    [contacts.json] had been read already. *)
Definition load_data (fs : Files) : gmap string Contact * gmap string (list string) :=
  match contacts_file fs with
  | Some saved_contacts =>
      match call_log_file fs with
      | Some saved_log => (saved_contacts, saved_log)
      | None => (∅, ∅)
      end
  | None => (∅, ∅)
  end.

(** [save_data()]: both files rewritten from the state. *)
Definition save_data (st : State) : Files :=
  mkFiles (Some (contacts st)) (Some (call_log st)).

(** The module at import time: [load_data()], a new trie filled by
    [for contact_name in contacts: trie.insert(contact_name)], and an empty
    [relationships]. [order] is the order in which that loop yields the keys
    of [contacts]. *)
Definition startup (fs : Files) (order : list string) : State :=
  mkState (load_data fs).1 (load_data fs).2 ∅ (Trie.insert_all Trie.new order).

(** Whether the handler of [rq] reached its call of [save_data()]: the five
    handlers that change a structure call it on the path that ends in their
    2xx answer and nowhere else; the other handlers never call it. *)
Definition saves (rq : Request) (resp : Response) : bool :=
  match rq with
  | POST_contacts _ | PUT_contacts _ _ | DELETE_contacts _
  | POST_contacts_relationship _ _ | POST_call _ _ => (status resp <? 400)%nat
  | GET_contacts_search _ | GET_contacts_graph | GET_call_log => false
  end.

(** One request served, with the files. *)
Definition serve (sf : State * Files) (rq : Request) : State * Files * Response :=
  let '(st', resp) := handle sf.1 rq in
  (st', if saves rq resp then save_data st' else sf.2, resp).

(** The state and the files after a sequence of requests. *)
Definition serve_all (sf : State * Files) (rqs : list Request) : State * Files :=
  fold_left (fun sf rq => (serve sf rq).1) rqs sf.

(** Example files and requests. *)
Definition no_files : Files := mkFiles None None.

Definition contacts_file_only : Files :=
  mkFiles (Some {["zoe" := mkContact "5550001111" EmptyString EmptyString EmptyString false]})
          None.

Definition add_two_delete_one : list Request :=
  [POST_contacts alice_data; POST_contacts bob_data;
   POST_contacts_relationship "alice" "bob"; DELETE_contacts "Alice"].

(** Every key of the three dictionaries, and every neighbour, is lowercase. *)
Definition lowercase_keys (st : State) : Prop :=
  (forall k, is_Some (contacts st !! k) -> lower k = k) /\
  (forall k ns, relationships st !! k = Some ns ->
     lower k = k /\ forall x, x ∈ ns -> lower x = x) /\
  (forall k, is_Some (call_log st !! k) -> lower k = k).


(** No key of the graph has an empty neighbour set, and no key of the call
    log an empty list. *)
Definition no_empty_entries (st : State) : Prop :=
  (forall k ns, relationships st !! k = Some ns -> ns ≠ ∅) /\
  (forall k ts, call_log st !! k = Some ts -> ts ≠ []).

(** The language of [email_regex]: a local part, [@], a domain, a dot, a
    suffix, and possibly one last line feed. *)
Definition email_shape (s : string) : Prop :=
  exists loc dom suf nl,
    s = loc +:+ String "@" (dom +:+ String "." (suf +:+ nl)) /\
    loc ≠ EmptyString /\ all_chars local_class loc = true /\
    dom ≠ EmptyString /\ all_chars domain_class dom = true /\
    suf ≠ EmptyString /\ all_chars suffix_class suf = true /\
    (nl = EmptyString \/ nl = String "010" EmptyString).

Example search_scenario :
  let tr := Trie.insert_all Trie.new ["Alice"; "Alicia"; "Bob"] in
  Trie.search tr "ali" = ["alice"; "alicia"] /\
  Trie.search tr "b" = ["bob"] /\
  Trie.search tr "z" = [] /\
  Trie.search tr EmptyString = ["alice"; "alicia"; "bob"] /\
  Trie.search tr "AL" = ["ALice"; "ALicia"] /\
  search_order ["Alice"; "Alicia"; "Bob"] "ali" = ["alice"; "alicia"] /\
  search_order ["Bob"; "Alicia"; "bo"; "Alice"] EmptyString = ["bo"; "bob"; "alicia"; "alice"] /\
  Trie.search (Trie.insert_all Trie.new ["Bob"; "Alicia"; "bo"; "Alice"]) EmptyString
    = ["bo"; "bob"; "alicia"; "alice"].
Proof. vm_compute. repeat split. Qed.

Example validate_scenario :
  validate_phone "1234567890" = true /\ validate_phone "12345" = false /\
  validate_phone "12345678901x" = false /\
  validate_email "a.b+c@ex-ample.co.uk" = true /\
  validate_email "a@b" = false /\ validate_email "@b.c" = false /\
  validate_email "a@b.c d" = false /\ validate_email "a@b_c.d" = false.
Proof. vm_compute. repeat split. Qed.

(** ** Strings: concatenation and prefixes *)

Lemma append_empty_r (s : string) : s +:+ EmptyString = s.
Proof. induction s as [|c s IH]; [reflexivity|]. change (String c (s +:+ EmptyString) = String c s). by rewrite IH. Qed.

Lemma append_cons (c : ascii) (s r : string) : String c s +:+ r = String c (s +:+ r).
Proof. reflexivity. Qed.

Lemma append_snoc (p : string) (c : ascii) (s : string) :
  (p +:+ String c EmptyString) +:+ s = p +:+ String c s.
Proof.
  induction p as [|a p IH]; [reflexivity|].
  rewrite !append_cons. by rewrite IH.
Qed.

Lemma starts_with_iff (p s : string) :
  starts_with p s = true <-> exists r, s = p +:+ r.
Proof.
  revert s. induction p as [|a p IH]; intros s.
  - split; [intros _; by exists s | done].
  - destruct s as [|b s]; simpl.
    + split; [done | intros [r Hr]; discriminate Hr].
    + destruct (decide (a = b)) as [->|Hne].
      * rewrite IH. split; intros [r Hr]; exists r.
        -- by rewrite append_cons, Hr.
        -- rewrite append_cons in Hr. by injection Hr.
      * split; [done | intros [r Hr]]. rewrite append_cons in Hr.
        injection Hr as Hab _. by destruct Hne.
Qed.

Lemma lower_char_idem (c : ascii) : lower_char (lower_char c) = lower_char c.
Proof. by destruct c as [[] [] [] [] [] [] [] []]. Qed.

Lemma lower_idem (s : string) : lower (lower s) = lower s.
Proof. induction s as [|c s IH]; simpl; [done|]. by rewrite lower_char_idem, IH. Qed.

(** ** Ordered dictionaries *)

Section DictFacts.
Context {V : Type}.
Implicit Types (d : list (ascii * V)) (c k : ascii) (v u : V).

Lemma get_set_eq c v d : Dict.get c (Dict.set c v d) = Some v.
Proof.
  induction d as [|[k u] d IH]; simpl.
  - by rewrite decide_True.
  - destruct (decide (k = c)) as [->|Hne]; simpl.
    + by rewrite decide_True.
    + by rewrite decide_False.
Qed.

Lemma get_set_ne c k v d : c ≠ k -> Dict.get k (Dict.set c v d) = Dict.get k d.
Proof.
  intros Hck. induction d as [|[a u] d IH]; simpl.
  - by rewrite decide_False.
  - destruct (decide (a = c)) as [->|Hne]; simpl.
    + by rewrite !decide_False.
    + by rewrite IH.
Qed.

Lemma set_set c v u d : Dict.set c v (Dict.set c u d) = Dict.set c v d.
Proof.
  induction d as [|[k w] d IH]; simpl.
  - by rewrite decide_True.
  - destruct (decide (k = c)) as [->|Hne]; simpl.
    + by rewrite decide_True.
    + by rewrite decide_False, IH.
Qed.

(** The keys after [d[c] = v]: unchanged when [c] was a key, [c] last
    otherwise. *)
Lemma keys_set c v d :
  Dict.keys (Dict.set c v d) =
  if decide (c ∈ Dict.keys d) then Dict.keys d else Dict.keys d ++ [c].
Proof.
  unfold Dict.keys. induction d as [|[k u] d IH]; simpl; [done|].
  destruct (decide (k = c)) as [->|Hne]; simpl.
  - rewrite decide_True; [done|]. by left.
  - rewrite IH. destruct (decide (c ∈ map fst d)) as [Hin|Hnin].
    + rewrite decide_True; [done|]. by right.
    + rewrite decide_False; [done|]. rewrite elem_of_cons. intros [->|?]; done.
Qed.

(** A dictionary given by its key list [l] and a function of the key. *)
Lemma get_tabulate (f : ascii -> V) c (l : list ascii) :
  Dict.get c (map (fun k => (k, f k)) l) = if decide (c ∈ l) then Some (f c) else None.
Proof.
  induction l as [|a l IH]; simpl; [done|].
  destruct (decide (a = c)) as [->|Hne].
  - rewrite decide_True; [done|]. by left.
  - rewrite IH. destruct (decide (c ∈ l)) as [Hin|Hnin].
    + rewrite decide_True; [done|]. by right.
    + rewrite decide_False; [done|]. rewrite elem_of_cons. intros [->|?]; done.
Qed.

Lemma set_tabulate (f : ascii -> V) c v (l : list ascii) :
  NoDup l ->
  Dict.set c v (map (fun k => (k, f k)) l) =
  map (fun k => (k, if decide (k = c) then v else f k))
      (if decide (c ∈ l) then l else l ++ [c]).
Proof.
  induction 1 as [|a l Ha Hl IH]; simpl.
  - by rewrite decide_True.
  - destruct (decide (a = c)) as [->|Hne].
    + rewrite (decide_True (P := c ∈ c :: l)) by (by left). simpl.
      rewrite decide_True by done. f_equal.
      apply map_ext_in. intros k Hk%list_elem_of_In.
      rewrite decide_False; [done|]. by intros ->.
    + rewrite IH. destruct (decide (c ∈ l)) as [Hin|Hnin].
      * rewrite (decide_True (P := c ∈ a :: l)) by (by right). simpl.
        by rewrite decide_False.
      * rewrite (decide_False (P := c ∈ a :: l)) by (rewrite elem_of_cons; intros [->|?]; done). simpl.
        by rewrite decide_False.
Qed.
End DictFacts.

(** ** Order of first occurrence *)

Lemma first_seen_snoc (l : list ascii) (c : ascii) :
  first_seen (l ++ [c]) =
  if decide (c ∈ first_seen l) then first_seen l else first_seen l ++ [c].
Proof. unfold first_seen. by rewrite fold_left_app. Qed.

Lemma elem_of_first_seen (l : list ascii) (c : ascii) : c ∈ first_seen l <-> c ∈ l.
Proof.
  induction l as [|a l IH] using rev_ind.
  - done.
  - rewrite first_seen_snoc. destruct (decide (a ∈ first_seen l)) as [Hin|Hnin].
    + rewrite elem_of_app, list_elem_of_singleton, IH. split; [tauto|].
      intros [?| ->]; [done|]. by apply IH.
    + by rewrite !elem_of_app, IH.
Qed.

Lemma NoDup_first_seen (l : list ascii) : NoDup (first_seen l).
Proof.
  induction l as [|a l IH] using rev_ind.
  - constructor.
  - rewrite first_seen_snoc. destruct (decide (a ∈ first_seen l)) as [Hin|Hnin]; [done|].
    apply NoDup_app. split; [done|]. split; [|apply NoDup_singleton].
    intros x Hx ->%list_elem_of_singleton. done.
Qed.

(** ** Insertion histories *)

Lemma heads_app (ws vs : list string) : heads (ws ++ vs) = heads ws ++ heads vs.
Proof. apply flat_map_app. Qed.

Lemma tails_app (c : ascii) (ws vs : list string) :
  tails c (ws ++ vs) = tails c ws ++ tails c vs.
Proof. apply flat_map_app. Qed.

Lemma elem_of_tails (c : ascii) (r : string) (ws : list string) :
  r ∈ tails c ws <-> String c r ∈ ws.
Proof.
  unfold tails. rewrite !list_elem_of_In, in_flat_map. split.
  - intros [[|a s] [Hin Hr]]; [done|].
    destruct (decide (a = c)) as [->|]; [|done].
    destruct Hr as [->|[]]. done.
  - intros Hin. exists (String c r). split; [done|].
    rewrite decide_True by done. by left.
Qed.

Lemma elem_of_heads (c : ascii) (ws : list string) :
  c ∈ heads ws <-> exists r, String c r ∈ ws.
Proof.
  unfold heads. rewrite list_elem_of_In, in_flat_map. split.
  - intros [[|a s] [Hin Hc]]; [done|].
    destruct Hc as [->|[]]. exists s. by apply list_elem_of_In.
  - intros [r Hin]. exists (String c r). split; [by apply list_elem_of_In | by left].
Qed.

Lemma tails_nil (c : ascii) (ws : list string) : c ∉ heads ws -> tails c ws = [].
Proof.
  intros Hc. apply elem_of_nil_inv. intros r Hr%elem_of_tails.
  apply Hc, elem_of_heads. by exists r.
Qed.

Lemma elem_of_strip (p s : string) (ws : list string) :
  s ∈ strip p ws <-> p +:+ s ∈ ws.
Proof.
  revert ws. induction p as [|c p IH]; intros ws; simpl; [done|].
  by rewrite IH, elem_of_tails.
Qed.

Lemma strip_nil (p : string) : strip p [] = [].
Proof. induction p as [|c p IH]; [done|]. exact IH. Qed.

Lemma depth_le (n : nat) (ws : list string) :
  depth ws <= n <-> forall w, w ∈ ws -> String.length w <= n.
Proof.
  induction ws as [|v ws IH]; simpl.
  - split; [intros _ w Hw; by apply elem_of_nil in Hw | lia].
  - rewrite Nat.max_lub_iff, IH. split.
    + intros [Hv Hws] w [->|Hw]%elem_of_cons; auto.
    + intros H. split; [apply H; by left | intros w Hw; apply H; by right].
Qed.

Lemma depth_tails (n : nat) (c : ascii) (ws : list string) :
  depth ws <= S n -> depth (tails c ws) <= n.
Proof.
  rewrite !depth_le. intros H r Hr%elem_of_tails.
  apply H in Hr. simpl in Hr. lia.
Qed.

Lemma depth_tails_le (c : ascii) (ws : list string) : depth (tails c ws) <= depth ws.
Proof.
  destruct (depth ws) as [|n] eqn:E.
  - apply depth_le. intros r Hr%elem_of_tails.
    assert (H : depth ws <= 0) by lia.
    rewrite depth_le in H. apply H in Hr. simpl in Hr. lia.
  - etrans; [apply (depth_tails n); lia | lia].
Qed.

Lemma depth_strip_le (p : string) (ws : list string) : depth (strip p ws) <= depth ws.
Proof.
  revert ws. induction p as [|c p IH]; intros ws; simpl; [done|].
  etrans; [apply IH | apply depth_tails_le].
Qed.

Lemma depth_zero_heads (ws : list string) : depth ws <= 0 -> heads ws = [].
Proof.
  rewrite depth_le. intros H. apply elem_of_nil_inv.
  intros c [r Hr]%elem_of_heads. apply H in Hr. simpl in Hr. lia.
Qed.

Lemma depth_snoc (n : nat) (ws : list string) (w : string) :
  depth (ws ++ [w]) <= n <-> depth ws <= n /\ String.length w <= n.
Proof.
  rewrite !depth_le. split.
  - intros H. split; [intros v Hv|]; apply H, elem_of_app; [by left|right; by left].
  - intros [Hws Hw] v [Hv| ->%list_elem_of_singleton]%elem_of_app; auto.
Qed.

(** ** The trie is a function of the insertion history *)

Lemma tree_of_nil (n : nat) : tree_of n [] = new_node.
Proof. by destruct n. Qed.

Lemma children_tree_of (n : nat) (ws : list string) :
  children (tree_of (S n) ws) =
  map (fun c => (c, tree_of n (tails c ws))) (first_seen (heads ws)).
Proof. reflexivity. Qed.

(** One more insertion is one more word in the history. *)
Lemma insert_loop_tree_of (n : nat) (ws : list string) (w : string) :
  depth ws <= n -> String.length w <= n ->
  Trie.insert_loop (tree_of n ws) w = tree_of n (ws ++ [w]).
Proof.
  revert ws w. induction n as [|n IH]; intros ws [|c r] Hd Hw; simpl in Hw; try lia.
  - simpl. f_equal. symmetry. apply bool_decide_eq_true.
    apply elem_of_app. right. by left.
  - cbn [Trie.insert_loop]. destruct (tree_of (S n) ws) as [e kids] eqn:E.
    cbn [children]. injection E as <- <-.
    cbn [tree_of]. f_equal.
    + symmetry. apply bool_decide_eq_true. apply elem_of_app. right. by left.
    + rewrite heads_app. simpl. rewrite app_nil_r.
      apply map_ext. intros k. by rewrite tails_app, app_nil_r.
  - cbn [Trie.insert_loop]. rewrite children_tree_of, get_tabulate.
    assert (Hchild :
      (match (if decide (c ∈ first_seen (heads ws))
              then Some (tree_of n (tails c ws)) else None) with
       | Some t => t | None => new_node end) = tree_of n (tails c ws)).
    { destruct (decide (c ∈ first_seen (heads ws))) as [Hin|Hnin]; [done|].
      rewrite elem_of_first_seen in Hnin. by rewrite tails_nil, tree_of_nil. }
    rewrite Hchild. rewrite IH by (auto using depth_tails; lia).
    rewrite set_tabulate by apply NoDup_first_seen.
    cbn [tree_of is_end_of_word]. f_equal.
    + apply bool_decide_ext. rewrite elem_of_app, list_elem_of_singleton.
      split; [by left | intros [?|?]; done].
    + rewrite heads_app. change (heads [String c r]) with [c].
      rewrite first_seen_snoc. apply map_ext. intros k.
      rewrite tails_app. simpl. destruct (decide (k = c)) as [->|Hne].
      * by rewrite decide_True.
      * rewrite decide_False by done. by rewrite app_nil_r.
Qed.

Lemma insert_all_snoc (tr : Trie.t) (ws : list string) (w : string) :
  Trie.insert_all tr (ws ++ [w]) = Trie.insert (Trie.insert_all tr ws) w.
Proof. unfold Trie.insert_all. by rewrite fold_left_app. Qed.

Lemma root_insert_all (n : nat) (names : list string) :
  depth (map lower names) <= n ->
  Trie.root (Trie.insert_all Trie.new names) = tree_of n (map lower names).
Proof.
  induction names as [|w names IH] using rev_ind; intros Hd.
  - simpl. by rewrite tree_of_nil.
  - rewrite map_app in *. simpl in *. apply depth_snoc in Hd as [Hd Hw].
    rewrite insert_all_snoc. simpl. rewrite IH by done.
    by apply insert_loop_tree_of.
Qed.

(** ** The words come out in pre-order *)

Lemma preorder_fuel (n m : nat) (ws : list string) :
  depth ws <= n -> depth ws <= m -> preorder n ws = preorder m ws.
Proof.
  revert m ws. induction n as [|n IH]; intros [|m] ws Hn Hm; simpl; f_equal.
  - by rewrite depth_zero_heads.
  - by rewrite depth_zero_heads.
  - apply flat_map_ext. intros c. f_equal. apply IH; by apply depth_tails.
Qed.

Lemma preorder_nil (n : nat) : preorder n [] = [].
Proof. by destruct n. Qed.

Lemma collect_tree_of (n : nat) (ws : list string) (p : string) :
  Trie._collect_all_words (tree_of n ws) p = map (String.append p) (preorder n ws).
Proof.
  revert ws p. induction n as [|n IH]; intros ws p; simpl.
  - rewrite !app_nil_r. destruct (bool_decide _); simpl; [|done].
    by rewrite append_empty_r.
  - rewrite map_app. f_equal.
    + destruct (bool_decide _); simpl; [|done]. by rewrite append_empty_r.
    + induction (first_seen (heads ws)) as [|c l IHl]; simpl; [done|].
      rewrite map_app, IHl, IH, map_map. f_equal.
      apply map_ext. intros s. apply append_snoc.
Qed.

Lemma search_loop_tree_of (chars : string) (n : nat) (ws : list string) (P : string) :
  depth ws <= n ->
  Trie.search_loop (tree_of n ws) chars P =
  map (String.append P) (preorder n (strip chars ws)).
Proof.
  revert n ws. induction chars as [|c r IH]; intros n ws Hd; simpl.
  - apply collect_tree_of.
  - destruct n as [|n].
    + simpl. rewrite tails_nil, strip_nil; [done|].
      rewrite depth_zero_heads by done. apply not_elem_of_nil.
    + rewrite children_tree_of, get_tabulate.
      destruct (decide (c ∈ first_seen (heads ws))) as [Hin|Hnin].
      * rewrite IH by by apply depth_tails. f_equal.
        apply preorder_fuel.
        -- etrans; [apply depth_strip_le | by apply depth_tails].
        -- etrans; [apply depth_strip_le|]. etrans; [by apply depth_tails | lia].
      * rewrite elem_of_first_seen in Hnin.
        by rewrite tails_nil, strip_nil, preorder_nil.
Qed.

(** [search] after a sequence of insertions into a new trie. *)
Lemma search_insert_all (names : list string) (P : string) :
  Trie.search (Trie.insert_all Trie.new names) P = search_order names P.
Proof.
  unfold Trie.search, search_order.
  rewrite (root_insert_all (depth (map lower names))) by done.
  rewrite search_loop_tree_of by done. f_equal.
  apply preorder_fuel; [apply depth_strip_le | done].
Qed.

(** ** The words that come out are the words that went in *)

Lemma elem_of_preorder (n : nat) (ws : list string) (w : string) :
  depth ws <= n -> w ∈ preorder n ws <-> w ∈ ws.
Proof.
  revert ws w. induction n as [|n IH]; intros ws w Hd; simpl.
  - rewrite app_nil_r. rewrite depth_le in Hd. split.
    + case_bool_decide as He; [|by intros ?%elem_of_nil].
      by intros ->%list_elem_of_singleton.
    + intros Hw. destruct w as [|c r]; [|apply Hd in Hw; simpl in Hw; lia].
      rewrite bool_decide_eq_true_2 by done. by left.
  - rewrite elem_of_app. split.
    + intros [Hw|Hw].
      * case_bool_decide as He; [|by apply elem_of_nil in Hw].
        by apply list_elem_of_singleton in Hw as ->.
      * apply list_elem_of_In, in_flat_map in Hw as (c & _ & Hw).
        apply in_map_iff in Hw as (r & <- & Hr).
        apply list_elem_of_In in Hr. rewrite IH in Hr by by apply depth_tails.
        by apply elem_of_tails.
    + intros Hw. destruct w as [|c r].
      * left. rewrite bool_decide_eq_true_2 by done. by left.
      * right. apply list_elem_of_In, in_flat_map. exists c. split.
        -- apply list_elem_of_In, elem_of_first_seen, elem_of_heads. by exists r.
        -- apply in_map, list_elem_of_In. rewrite IH by by apply depth_tails.
           by apply elem_of_tails.
Qed.

Lemma NoDup_preorder (n : nat) (ws : list string) : NoDup (preorder n ws).
Proof.
  revert ws. induction n as [|n IH]; intros ws; simpl.
  - rewrite app_nil_r. destruct (bool_decide _); [apply NoDup_singleton | constructor].
  - apply NoDup_app. split; [|split].
    + destruct (bool_decide _); [apply NoDup_singleton | constructor].
    + intros w Hw Hw'. apply list_elem_of_In, in_flat_map in Hw' as (c & _ & Hw').
      apply in_map_iff in Hw' as (r & <- & _).
      destruct (bool_decide _); [|by apply elem_of_nil in Hw].
      by apply list_elem_of_singleton in Hw.
    + pose proof (NoDup_first_seen (heads ws)) as Hnd.
      induction Hnd as [|c l Hc Hl IHl]; simpl; [constructor|].
      apply NoDup_app. split; [|split; [|done]].
      * apply NoDup_fmap_2; [by intros ?? [= ->]|apply IH].
      * intros w Hw Hw'. apply list_elem_of_In, in_map_iff in Hw as (r & <- & _).
        apply list_elem_of_In, in_flat_map in Hw' as (k & Hk & Hw').
        apply in_map_iff in Hw' as (r' & [= -> _] & _).
        by apply list_elem_of_In in Hk.
Qed.

Lemma elem_of_search (names : list string) (P w : string) :
  w ∈ Trie.search (Trie.insert_all Trie.new names) P <->
  exists N s, N ∈ names /\ lower N = lower P +:+ s /\ w = P +:+ s.
Proof.
  rewrite search_insert_all. unfold search_order.
  rewrite list_elem_of_In, in_map_iff. split.
  - intros (s & <- & Hs). apply list_elem_of_In in Hs.
    rewrite elem_of_preorder, elem_of_strip in Hs by done.
    apply list_elem_of_In, in_map_iff in Hs as (N & HN & Hin).
    exists N, s. by rewrite list_elem_of_In.
  - intros (N & s & HN & Hl & ->). exists s. split; [done|].
    apply list_elem_of_In. rewrite elem_of_preorder, elem_of_strip by done.
    rewrite <- Hl. apply list_elem_of_In, in_map. by apply list_elem_of_In.
Qed.

(** A lowercase prefix finds every inserted name it is a prefix of, in
    lowercase. *)
Lemma search_lowercase_prefix (names : list string) (N P : string) :
  N ∈ names -> lower P = P -> ci_prefix P N = true ->
  lower N ∈ Trie.search (Trie.insert_all Trie.new names) P.
Proof.
  intros HN HP [s Hs]%starts_with_iff. apply elem_of_search.
  exists N, s. split; [done|]. split; [done|]. by rewrite <- HP at 1.
Qed.

Lemma insert_loop_idem (node : TrieNode) (w : string) :
  Trie.insert_loop (Trie.insert_loop node w) w = Trie.insert_loop node w.
Proof.
  revert node. induction w as [|c r IH]; intros node; [done|].
  cbn [Trie.insert_loop children is_end_of_word].
  by rewrite get_set_eq, IH, set_set.
Qed.

(** ** Properties of the trie *)

(** C1 (the code departs from it): a prefix that is a case-insensitive prefix
    of an inserted name finds it in lowercase. [search] walks the lowercased
    prefix but rebuilds the words from the prefix as it was given: after
    [insert("Alice")], [search("AL")] is ["ALice"], which holds neither
    "alice" nor any lowercase string. *)
Theorem search_uppercase_prefix_keeps_case :
  let tr := Trie.insert Trie.new "Alice" in
  ci_prefix "AL" "Alice" = true /\
  Trie.search tr "AL" = ["ALice"] /\
  (lower "Alice" ∉ Trie.search tr "AL") /\
  Trie.search tr (lower "AL") = ["alice"].
Proof.
  cbv zeta. split; [reflexivity|]. split; [reflexivity|]. split; [|reflexivity].
  change (Trie.search (Trie.insert Trie.new "Alice") "AL") with ["ALice"].
  intros H%list_elem_of_singleton. discriminate H.
Qed.

(** C2: after any sequence of insertions into a new trie, [search] of the empty prefix
    returns exactly the inserted names in lowercase, each once, and
    [search(P)] is empty when [P] is a case-insensitive prefix of no inserted
    name. *)
Theorem search_empty_prefix_and_miss (names : list string) :
  let tr := Trie.insert_all Trie.new names in
  (forall w, w ∈ Trie.search tr EmptyString <-> w ∈ map lower names) /\
  NoDup (Trie.search tr EmptyString) /\
  (forall P, (forall N, N ∈ names -> ci_prefix P N = false) -> Trie.search tr P = []).
Proof.
  cbv zeta. split; [|split].
  - intros w. rewrite elem_of_search, list_elem_of_In, in_map_iff. split.
    + intros (N & s & HN & Hl & ->). exists N. split; [exact Hl|].
      by apply list_elem_of_In.
    + intros (N & <- & HN). exists N, (lower N). split; [|done].
      by apply list_elem_of_In.
  - rewrite search_insert_all. unfold search_order.
    apply NoDup_fmap_2; [by intros ?? ?|apply NoDup_preorder].
  - intros P HP. apply elem_of_nil_inv. intros w (N & s & HN & Hl & _)%elem_of_search.
    specialize (HP N HN). unfold ci_prefix in HP.
    assert (starts_with (lower P) (lower N) = true) as Ht
      by (apply starts_with_iff; by exists s).
    congruence.
Qed.

Lemma search_empty_prefix_and_miss_witness :
  Trie.search (Trie.insert_all Trie.new ["Alice"; "Bob"]) "z" = [].
Proof.
  apply (proj2 (proj2 (search_empty_prefix_and_miss ["Alice"; "Bob"]))).
  intros N HN.
  apply elem_of_cons in HN as [->|HN]; [reflexivity|].
  apply elem_of_cons in HN as [->|HN]; [reflexivity|].
  by apply elem_of_nil in HN.
Defined.

(** C4: the result of [search] is a function of the insertion history,
    [search_order]: a node's own word comes before the words below it, and
    the children are visited in the order in which they were created, a new
    child being placed after the existing ones and an existing child keeping
    its place. *)
Theorem search_order_of_history :
  (forall names P,
     Trie.search (Trie.insert_all Trie.new names) P = search_order names P) /\
  (forall e kids p,
     Trie._collect_all_words (Node e kids) p =
     (if e then [p] else []) ++
     flat_map (fun kv => Trie._collect_all_words (snd kv) (p +:+ String (fst kv) EmptyString))
              kids) /\
  (forall node c r,
     Dict.keys (children (Trie.insert_loop node (String c r))) =
     if decide (c ∈ Dict.keys (children node))
     then Dict.keys (children node)
     else Dict.keys (children node) ++ [c]) /\
  (forall names,
     Dict.keys (children (Trie.root (Trie.insert_all Trie.new names))) =
     first_seen (heads (map lower names))).
Proof.
  split; [apply search_insert_all|]. split; [|split].
  - intros e kids p. simpl. f_equal. apply flat_map_ext. by intros [c child].
  - intros node c r. cbn [Trie.insert_loop children]. apply keys_set.
  - intros names. rewrite (root_insert_all (S (depth (map lower names)))) by lia.
    rewrite children_tree_of. unfold Dict.keys. rewrite map_map. simpl. apply map_id.
Qed.

(** C5: inserting a name a second time changes nothing: the trie is the
    same, and so is the result of every search. *)
Theorem insert_twice_same_search (tr : Trie.t) (N P : string) :
  Trie.insert (Trie.insert tr N) N = Trie.insert tr N /\
  Trie.search (Trie.insert (Trie.insert tr N) N) P = Trie.search (Trie.insert tr N) P.
Proof.
  assert (H : Trie.insert (Trie.insert tr N) N = Trie.insert tr N).
  { unfold Trie.insert. simpl. by rewrite insert_loop_idem. }
  by rewrite H.
Qed.

(** ** A name just inserted is found, in any trie *)

Lemma elem_of_set_dict {V : Type} (c : ascii) (v : V) (d : list (ascii * V)) :
  (c, v) ∈ Dict.set c v d.
Proof.
  induction d as [|[k u] d IH]; simpl; [by left|].
  destruct (decide (k = c)) as [->|Hne]; [by left | by right].
Qed.

Lemma collect_insert_loop (node : TrieNode) (s P : string) :
  P +:+ s ∈ Trie._collect_all_words (Trie.insert_loop node s) P.
Proof.
  revert node P. induction s as [|c r IH]; intros node P.
  - simpl. rewrite append_empty_r. by left.
  - cbn [Trie.insert_loop Trie._collect_all_words].
    apply elem_of_app. right. apply list_elem_of_In, in_flat_map.
    eexists (c, _). split; [apply list_elem_of_In, elem_of_set_dict|].
    apply list_elem_of_In. rewrite <- append_snoc. apply IH.
Qed.

Lemma search_loop_insert_loop (node : TrieNode) (p s P : string) :
  P +:+ s ∈ Trie.search_loop (Trie.insert_loop node (p +:+ s)) p P.
Proof.
  revert node. induction p as [|c p IH]; intros node.
  - apply collect_insert_loop.
  - rewrite append_cons. cbn [Trie.insert_loop Trie.search_loop children].
    rewrite get_set_eq. apply IH.
Qed.

Lemma search_after_insert (tr : Trie.t) (N P : string) :
  lower P = P -> ci_prefix P N = true -> lower N ∈ Trie.search (Trie.insert tr N) P.
Proof.
  intros HP [s Hs]%starts_with_iff. unfold Trie.search, Trie.insert. simpl.
  rewrite Hs, HP. apply search_loop_insert_loop.
Qed.

(** ** The search endpoint *)

Lemma lookup_result_contacts_acc (store acc : gmap string Contact)
    (results : list string) (k : string) :
  fold_left (fun acc name =>
               match store !! lower name with
               | Some details => <[name := details]> acc
               | None => acc
               end) results acc !! k =
  match (if decide (k ∈ results) then store !! lower k else None) with
  | Some details => Some details
  | None => acc !! k
  end.
Proof.
  revert acc. induction results as [|a l IH]; intros acc; simpl; [done|].
  rewrite IH. destruct (decide (k ∈ l)) as [Hin|Hnin].
  - rewrite (decide_True (P := k ∈ a :: l)) by (by right).
    destruct (store !! lower k) as [d|] eqn:Ek; [done|].
    destruct (store !! lower a) as [d|] eqn:Ea; [|done].
    rewrite lookup_insert_ne; [done|]. intros ->. congruence.
  - destruct (decide (a = k)) as [->|Hne].
    + rewrite (decide_True (P := k ∈ k :: l)) by (by left).
      destruct (store !! lower k) as [d|]; [|done]. by rewrite lookup_insert_eq.
    + rewrite (decide_False (P := k ∈ a :: l))
        by (rewrite elem_of_cons; intros [->|?]; done).
      destruct (store !! lower a) as [d|]; [|done]. by rewrite lookup_insert_ne.
Qed.

Lemma lookup_result_contacts (store : gmap string Contact)
    (results : list string) (k : string) :
  result_contacts store results !! k =
  if decide (k ∈ results) then store !! lower k else None.
Proof.
  unfold result_contacts. rewrite lookup_result_contacts_acc, lookup_empty.
  destruct (decide (k ∈ results)); [|done]. by destruct (store !! lower k).
Qed.

Lemma delete_contact_removes (st : State) (name : string) :
  contacts (delete_contact st name).1 !! lower name = None.
Proof.
  unfold delete_contact. destruct (contacts st !! lower name) eqn:E; simpl; [|done].
  apply lookup_delete_eq.
Qed.

Lemma delete_contact_frame (st : State) (name : string) :
  let st' := (delete_contact st name).1 in
  call_log st' = call_log st /\ relationships st' = relationships st /\
  trie st' = trie st /\
  (forall k, k ≠ lower name -> contacts st' !! k = contacts st !! k).
Proof.
  unfold delete_contact. destruct (contacts st !! lower name) eqn:E; simpl; [|done].
  repeat split. intros k Hk. by rewrite lookup_delete_ne.
Qed.

(** C3: after [delete_contact(name)], the search endpoint answers every
    query without an entry for that contact, although the trie is unchanged
    and still returns a name that was added and then deleted. *)
Theorem search_endpoint_after_delete (st : State) (name : string) (query : option string) :
  let st' := (delete_contact st name).1 in
  (exists entries,
     (search_contact st' query).2 = (contacts_json entries, 200) /\
     forall k, lower k = lower name -> entries !! k = None) /\
  (forall P, Trie.search (trie st') P = Trie.search (trie st) P) /\
  (forall st0 data r,
     add_contact st0 data = (st, (r, 201)) -> get_name data = Some name ->
     lower name ∈ Trie.search (trie st') (lower name) /\
     contacts st' !! lower name = None).
Proof.
  cbv zeta. split; [|split].
  - eexists. split; [reflexivity|]. intros k Hk.
    rewrite lookup_result_contacts. destruct (decide _); [|done].
    rewrite Hk. apply delete_contact_removes.
  - intros P. by destruct (delete_contact_frame st name) as (_ & _ & -> & _).
  - intros st0 data r Hadd Hname. split; [|apply delete_contact_removes].
    destruct (delete_contact_frame st name) as (_ & _ & -> & _).
    unfold add_contact in Hadd. rewrite Hname in Hadd.
    repeat match type of Hadd with
           | (if ?b then _ else _) = _ => destruct b; [by inversion Hadd|]
           end.
    inversion Hadd; subst; simpl.
    apply search_after_insert; [apply lower_idem|].
    unfold ci_prefix. rewrite lower_idem. apply starts_with_iff.
    exists EmptyString. by rewrite append_empty_r.
Qed.

Lemma search_endpoint_after_delete_witness :
  lower "Alice" ∈ Trie.search (trie (delete_contact with_alice "Alice").1) (lower "Alice") /\
  contacts (delete_contact with_alice "Alice").1 !! lower "Alice" = None.
Proof.
  apply (proj2 (proj2 (search_endpoint_after_delete with_alice "Alice" None))
           init alice_data (message "Contact added successfully")).
  - reflexivity.
  - reflexivity.
Defined.

(** ** Updates *)

Lemma truthy_false (v : option string) :
  truthy v = false <-> v = None \/ v = Some EmptyString.
Proof.
  destruct v as [[|c s]|]; simpl; split; auto; try discriminate;
    intros [H|H]; discriminate H.
Qed.

(** What [apply_update] does to each field. *)
Lemma apply_update_fields (c : Contact) (data : Json) :
  let c' := apply_update c data in
  phone c' = (if truthy (get_phone data) then str (get_phone data) else phone c) /\
  email c' = (if truthy (get_email data) then str (get_email data) else email c) /\
  address c' = (if truthy (get_address data) then str (get_address data) else address c) /\
  group c' = (if truthy (get_group data) then str (get_group data) else group c) /\
  favorite c' = default (favorite c) (get_favorite data).
Proof.
  unfold apply_update.
  destruct (truthy (get_phone data)), (truthy (get_email data)),
    (truthy (get_address data)), (truthy (get_group data)),
    (get_favorite data); by destruct c.
Qed.

(** The three outcomes of [update_contact]. *)
Lemma update_contact_cases (st : State) (name : string) (data : Json) :
  let res := update_contact st name data in
  (contacts st !! lower name = None /\ res.1 = st /\ status res.2 = 404) \/
  (is_Some (contacts st !! lower name) /\ res.1 = st /\ status res.2 = 400 /\
   ((truthy (get_phone data) = true /\ validate_phone (str (get_phone data)) = false) \/
    (truthy (get_email data) = true /\ validate_email (str (get_email data)) = false))) \/
  (exists c, contacts st !! lower name = Some c /\ status res.2 = 200 /\
     res.1 = mkState (<[lower name := apply_update c data]> (contacts st))
                     (call_log st) (relationships st) (trie st)).
Proof.
  unfold update_contact. destruct (contacts st !! lower name) as [c|] eqn:E; simpl.
  - destruct (truthy (get_phone data)) eqn:Tp; simpl.
    + destruct (validate_phone (str (get_phone data))) eqn:Vp; simpl.
      * destruct (truthy (get_email data)) eqn:Te; simpl.
        -- destruct (validate_email (str (get_email data))) eqn:Ve; simpl.
           ++ right. right. by exists c.
           ++ right. left. eauto 10.
        -- right. right. by exists c.
      * right. left. eauto 10.
    + destruct (truthy (get_email data)) eqn:Te; simpl.
      * destruct (validate_email (str (get_email data))) eqn:Ve; simpl.
        -- right. right. by exists c.
        -- right. left. eauto 10.
      * right. right. by exists c.
  - by left.
Qed.

(** C6: an update of an existing contact with a malformed phone or a
    malformed email is answered with 400 and changes nothing: the state, and
    with it the contact's record, is the one before the request. *)
Theorem update_malformed_changes_nothing
    (st : State) (name : string) (data : Json) (c : Contact) :
  contacts st !! lower name = Some c ->
  (truthy (get_phone data) = true /\ validate_phone (str (get_phone data)) = false) \/
  (truthy (get_email data) = true /\ validate_email (str (get_email data)) = false) ->
  let res := update_contact st name data in
  status res.2 = 400 /\ res.1 = st /\ contacts res.1 !! lower name = Some c.
Proof.
  intros Hc Hbad. cbv zeta. unfold update_contact. rewrite Hc.
  destruct Hbad as [[-> ->]|[-> ->]]; simpl.
  - done.
  - by destruct (truthy (get_phone data) && negb (validate_phone (str (get_phone data)))).
Qed.

Lemma update_malformed_changes_nothing_witness :
  status (update_contact with_alice "ALICE" bad_phone).2 = 400 /\
  (update_contact with_alice "ALICE" bad_phone).1 = with_alice /\
  contacts (update_contact with_alice "ALICE" bad_phone).1 !! lower "ALICE"
    = Some (mkContact "1234567890" "alice@example.org" "1 Main St" EmptyString true).
Proof.
  apply (update_malformed_changes_nothing with_alice "ALICE" bad_phone).
  - reflexivity.
  - left. split; reflexivity.
Defined.

(** C8: whatever the outcome of an update of an existing contact, a field
    that is absent from the request or given as the empty string keeps its
    value, every other contact and the other structures are untouched; when
    the update succeeds, a string field given a non-empty value takes it. *)
Theorem update_touches_only_provided_fields
    (st : State) (name : string) (data : Json) (c : Contact) :
  contacts st !! lower name = Some c ->
  let res := update_contact st name data in
  exists c',
    contacts res.1 !! lower name = Some c' /\
    (get_phone data = None \/ get_phone data = Some EmptyString -> phone c' = phone c) /\
    (get_email data = None \/ get_email data = Some EmptyString -> email c' = email c) /\
    (get_address data = None \/ get_address data = Some EmptyString -> address c' = address c) /\
    (get_group data = None \/ get_group data = Some EmptyString -> group c' = group c) /\
    (get_favorite data = None -> favorite c' = favorite c) /\
    (status res.2 = 200 ->
       (forall v, get_phone data = Some v -> v ≠ EmptyString -> phone c' = v) /\
       (forall v, get_email data = Some v -> v ≠ EmptyString -> email c' = v) /\
       (forall v, get_address data = Some v -> v ≠ EmptyString -> address c' = v) /\
       (forall v, get_group data = Some v -> v ≠ EmptyString -> group c' = v)) /\
    (forall k, k ≠ lower name -> contacts res.1 !! k = contacts st !! k) /\
    call_log res.1 = call_log st /\
    relationships res.1 = relationships st /\
    trie res.1 = trie st.
Proof.
  intros Hc. cbv zeta.
  destruct (update_contact_cases st name data)
    as [(Hn & _)|[(_ & Hst & Hcode & _)|(c0 & Hc0 & Hcode & Hst)]].
  - congruence.
  - rewrite Hst, Hcode. exists c. repeat split; try done.
  - rewrite Hst. simpl. assert (c0 = c) as -> by congruence.
    exists (apply_update c data). rewrite lookup_insert_eq.
    destruct (apply_update_fields c data) as (Hp & He & Ha & Hg & Hf).
    rewrite Hp, He, Ha, Hg, Hf.
    repeat split; try done.
    + by intros ->%truthy_false.
    + by intros ->%truthy_false.
    + by intros ->%truthy_false.
    + by intros ->%truthy_false.
    + by intros ->.
    + intros v -> Hv. by destruct v.
    + intros v -> Hv. by destruct v.
    + intros v -> Hv. by destruct v.
    + intros v -> Hv. by destruct v.
    + intros k Hk. by rewrite lookup_insert_ne.
Qed.

Lemma update_touches_only_provided_fields_witness :
  exists c',
    contacts (update_contact with_alice "alice"
                (mkJson None (Some EmptyString) None (Some "3 New Rd") None None)).1
      !! lower "alice" = Some c' /\
    phone c' = "1234567890" /\ address c' = "3 New Rd".
Proof.
  destruct (update_touches_only_provided_fields with_alice "alice"
              (mkJson None (Some EmptyString) None (Some "3 New Rd") None None)
              (mkContact "1234567890" "alice@example.org" "1 Main St" EmptyString true)
              eq_refl)
    as (c' & Hc' & Hp & _ & _ & _ & _ & Hok & _).
  exists c'. split; [exact Hc'|]. split.
  - apply Hp. by right.
  - apply (proj1 (proj2 (proj2 (Hok eq_refl)))); [reflexivity | discriminate].
Defined.

(** C9: when an update succeeds, a [favorite] present in the request is
    stored whatever its value, [false] included, while the empty string for
    [phone], [email], [address] or [group] leaves that field as it was. *)
Theorem update_favorite_false_is_stored
    (st : State) (name : string) (data : Json) (c : Contact) :
  contacts st !! lower name = Some c ->
  let res := update_contact st name data in
  status res.2 = 200 ->
  exists c',
    contacts res.1 !! lower name = Some c' /\
    (forall b, get_favorite data = Some b -> favorite c' = b) /\
    (get_favorite data = Some false -> favorite c' = false) /\
    (get_phone data = Some EmptyString -> phone c' = phone c) /\
    (get_email data = Some EmptyString -> email c' = email c) /\
    (get_address data = Some EmptyString -> address c' = address c) /\
    (get_group data = Some EmptyString -> group c' = group c).
Proof.
  intros Hc. cbv zeta. intros Hok.
  destruct (update_contact_cases st name data)
    as [(Hn & _)|[(_ & _ & Hcode & _)|(c0 & Hc0 & _ & Hst)]].
  - congruence.
  - rewrite Hcode in Hok. discriminate Hok.
  - rewrite Hst. simpl. assert (c0 = c) as -> by congruence.
    exists (apply_update c data). rewrite lookup_insert_eq.
    destruct (apply_update_fields c data) as (Hp & He & Ha & Hg & Hf).
    rewrite Hp, He, Ha, Hg, Hf.
    repeat split; try done.
    + by intros b ->.
    + by intros ->.
    + by intros ->.
    + by intros ->.
    + by intros ->.
    + by intros ->.
Qed.

Lemma update_favorite_false_is_stored_witness :
  exists c',
    contacts (update_contact with_alice "Alice" empty_fields).1 !! lower "Alice" = Some c' /\
    favorite c' = false /\ phone c' = "1234567890".
Proof.
  destruct (update_favorite_false_is_stored with_alice "Alice" empty_fields
              (mkContact "1234567890" "alice@example.org" "1 Main St" EmptyString true)
              eq_refl eq_refl)
    as (c' & Hc' & _ & Hf & Hp & _).
  exists c'. split; [exact Hc'|]. split; [by apply Hf | by apply Hp].
Defined.

(** ** The relationship graph *)

Lemma neighbors_insert (g : gmap string (gset string)) (k a : string) (s : gset string) :
  neighbors (<[k := s]> g) a = if decide (a = k) then s else neighbors g a.
Proof.
  unfold neighbors. destruct (decide (a = k)) as [->|Hne].
  - by rewrite lookup_insert_eq.
  - by rewrite lookup_insert_ne.
Qed.

(** Adding a neighbour that is already listed changes nothing. *)
Lemma insert_neighbors_id (g : gmap string (gset string)) (k x : string) (s : gset string) :
  g !! k = Some s -> x ∈ s -> <[k := neighbors g k ∪ {[x]}]> g = g.
Proof.
  intros Hk Hx. apply insert_id. unfold neighbors. rewrite Hk. simpl.
  f_equal. set_solver.
Qed.

Lemma neighbors_add_edge (g : gmap string (gset string)) (key1 key2 k x : string) :
  x ∈ neighbors (add_edge g key1 key2) k <->
  x ∈ neighbors g k \/ (k = key1 /\ x = key2) \/ (k = key2 /\ x = key1).
Proof.
  unfold add_edge. rewrite !neighbors_insert.
  destruct (decide (k = key2)) as [->|H2].
  - rewrite elem_of_union, elem_of_singleton.
    destruct (decide (key2 = key1)) as [->|H1].
    + rewrite elem_of_union, elem_of_singleton. naive_solver.
    + naive_solver.
  - destruct (decide (k = key1)) as [->|H1].
    + rewrite elem_of_union, elem_of_singleton. naive_solver.
    + naive_solver.
Qed.

Lemma add_edge_symmetric (g : gmap string (gset string)) (key1 key2 : string) :
  symmetric g -> symmetric (add_edge g key1 key2).
Proof.
  intros Hg a b. rewrite !neighbors_add_edge.
  intros [Hab|[[-> ->]|[-> ->]]]; [left; by apply Hg | auto | auto].
Qed.

Lemma add_edge_idem (g : gmap string (gset string)) (key1 key2 : string) :
  add_edge (add_edge g key1 key2) key1 key2 = add_edge g key1 key2.
Proof.
  set (g2 := add_edge g key1 key2).
  assert (H1 : exists s, g2 !! key1 = Some s /\ key2 ∈ s).
  { unfold g2, add_edge. destruct (decide (key1 = key2)) as [->|Hne].
    - rewrite lookup_insert_eq. eexists. split; [done|].
      apply elem_of_union. right. by apply elem_of_singleton.
    - rewrite lookup_insert_ne by done. rewrite lookup_insert_eq.
      eexists. split; [done|]. apply elem_of_union. right. by apply elem_of_singleton. }
  assert (H2 : exists s, g2 !! key2 = Some s /\ key1 ∈ s).
  { unfold g2, add_edge. rewrite lookup_insert_eq. eexists. split; [done|].
    apply elem_of_union. right. by apply elem_of_singleton. }
  destruct H1 as (s1 & Hs1 & Hin1), H2 as (s2 & Hs2 & Hin2).
  unfold add_edge at 1. fold g2.
  rewrite (insert_neighbors_id g2 key1 key2 s1) by done.
  by rewrite (insert_neighbors_id g2 key2 key1 s2).
Qed.

Lemma add_relationship_ok (st : State) (name1 name2 : string) :
  is_Some (contacts st !! lower name1) -> is_Some (contacts st !! lower name2) ->
  add_relationship st name1 name2 =
  (mkState (contacts st) (call_log st)
           (add_edge (relationships st) (lower name1) (lower name2)) (trie st),
   (message ("Relationship added between " +:+ name1 +:+ " and " +:+ name2), 200)).
Proof. intros [c1 H1] [c2 H2]. unfold add_relationship. by rewrite H1, H2. Qed.

Lemma add_relationship_missing (st : State) (name1 name2 : string) :
  contacts st !! lower name1 = None \/ contacts st !! lower name2 = None ->
  add_relationship st name1 name2 = (st, (error "One or both contacts not found", 404)).
Proof.
  unfold add_relationship. intros [H|H]; rewrite H; [done|].
  by destruct (contacts st !! lower name1).
Qed.

(** C7: [add_relationship] answers 404 and changes nothing when either
    lowercased key is missing from the contacts; when both are present it
    answers 200, each key is in the other's neighbour set, no other
    neighbour set changes, a second call changes nothing, and a symmetric
    graph stays symmetric. *)
Theorem add_relationship_spec (st : State) (name1 name2 : string) :
  let key1 := lower name1 in
  let key2 := lower name2 in
  let res := add_relationship st name1 name2 in
  (contacts st !! key1 = None \/ contacts st !! key2 = None ->
     status res.2 = 404 /\ res.1 = st) /\
  (is_Some (contacts st !! key1) -> is_Some (contacts st !! key2) ->
     status res.2 = 200 /\
     key2 ∈ neighbors (relationships res.1) key1 /\
     key1 ∈ neighbors (relationships res.1) key2 /\
     (forall k x, x ∈ neighbors (relationships res.1) k <->
                  x ∈ neighbors (relationships st) k \/
                  (k = key1 /\ x = key2) \/ (k = key2 /\ x = key1)) /\
     contacts res.1 = contacts st /\
     add_relationship res.1 name1 name2 = res /\
     (symmetric (relationships st) -> symmetric (relationships res.1))).
Proof.
  cbv zeta. split.
  - intros H. by rewrite add_relationship_missing.
  - intros H1 H2. rewrite add_relationship_ok by done. simpl.
    split; [done|]. split; [|split; [|split; [|split; [|split]]]].
    + apply neighbors_add_edge. auto.
    + apply neighbors_add_edge. auto.
    + intros k x. apply neighbors_add_edge.
    + done.
    + rewrite add_relationship_ok by done. simpl. by rewrite add_edge_idem.
    + apply add_edge_symmetric.
Qed.

Lemma add_relationship_spec_witness :
  (status (add_relationship with_alice "alice" "bob").2 = 404 /\
   (add_relationship with_alice "alice" "bob").1 = with_alice) /\
  (status (add_relationship with_alice_bob "Alice" "BOB").2 = 200 /\
   "bob" ∈ neighbors (relationships (add_relationship with_alice_bob "Alice" "BOB").1) "alice" /\
   "alice" ∈ neighbors (relationships (add_relationship with_alice_bob "Alice" "BOB").1) "bob").
Proof.
  split.
  - apply (proj1 (add_relationship_spec with_alice "alice" "bob")).
    right. reflexivity.
  - destruct (proj2 (add_relationship_spec with_alice_bob "Alice" "BOB"))
      as (Hs & H1 & H2 & _).
    + eexists. reflexivity.
    + eexists. reflexivity.
    + split; [exact Hs|]. split; [exact H1 | exact H2].
Defined.

(** The graph of every state reached from the initial one is symmetric. *)
Lemma handle_symmetric (st : State) (rq : Request) :
  symmetric (relationships st) -> symmetric (relationships (handle st rq).1).
Proof.
  intros Hg. destruct rq as [data|name data|name|query|name1 name2| |name now|]; simpl;
    try done.
  - unfold add_contact.
    repeat match goal with |- context [if ?b then _ else _] => destruct b end; done.
  - destruct (update_contact_cases st name data)
      as [(_ & -> & _)|[(_ & -> & _)|(c & _ & _ & ->)]]; done.
  - by destruct (delete_contact_frame st name) as (_ & -> & _).
  - unfold add_relationship.
    destruct (contacts st !! lower name1), (contacts st !! lower name2); simpl; try done.
    by apply add_edge_symmetric.
  - unfold log_call. by destruct (contacts st !! lower name).
Qed.

Lemma run_symmetric (rqs : list Request) : symmetric (relationships (run init rqs)).
Proof.
  induction rqs as [|rq rqs IH] using rev_ind.
  - intros a b Hb. by apply elem_of_empty in Hb.
  - unfold run in *. rewrite fold_left_app. simpl. by apply handle_symmetric.
Qed.

(** ** Deletion *)

(** C10: [delete_contact] takes the key out of the contacts and touches
    nothing else: the relationship graph, the call log and the trie are the
    same, so the graph dump and the call-log dump are the ones before the
    deletion and still list the deleted key, its neighbours and its calls. *)
Theorem delete_keeps_graph_and_call_log (st : State) (name : string) :
  let st' := (delete_contact st name).1 in
  contacts st' !! lower name = None /\
  (forall k, k ≠ lower name -> contacts st' !! k = contacts st !! k) /\
  relationships st' = relationships st /\
  call_log st' = call_log st /\
  trie st' = trie st /\
  (get_graph st').2 = (get_graph st).2 /\
  (get_call_log st').2 = (get_call_log st).2 /\
  (forall k ns, relationships st !! k = Some ns ->
     exists adjacency, (get_graph st').2 = (graph_json adjacency, 200) /\
                       adjacency !! k = Some (elements ns)) /\
  (forall k ts, call_log st !! k = Some ts ->
     exists log, (get_call_log st').2 = (call_log_json log, 200) /\ log !! k = Some ts).
Proof.
  cbv zeta. destruct (delete_contact_frame st name) as (Hl & Hr & Ht & Hc).
  split; [apply delete_contact_removes|]. split; [exact Hc|].
  split; [exact Hr|]. split; [exact Hl|]. split; [exact Ht|].
  unfold get_graph, get_call_log. simpl. rewrite Hl, Hr.
  split; [done|]. split; [done|]. split.
  - intros k ns Hk. eexists. split; [done|]. by rewrite lookup_fmap, Hk.
  - intros k ts Hk. by eexists.
Qed.

Lemma delete_keeps_graph_and_call_log_witness :
  contacts (delete_contact related_and_called "Alice").1 !! "alice" = None /\
  (exists adjacency,
     (get_graph (delete_contact related_and_called "Alice").1).2
       = (graph_json adjacency, 200) /\
     adjacency !! "alice" = Some ["bob"] /\
     adjacency !! "bob" = Some ["alice"]) /\
  (exists log,
     (get_call_log (delete_contact related_and_called "Alice").1).2
       = (call_log_json log, 200) /\
     log !! "alice" = Some ["2024-01-01 09:00:00"]).
Proof.
  destruct (delete_keeps_graph_and_call_log related_and_called "Alice")
    as (Hgone & _ & _ & _ & _ & _ & _ & Hgraph & Hlog).
  split; [exact Hgone|]. split.
  - destruct (Hgraph "alice" {["bob"]} eq_refl) as (adj & Hadj & Ha).
    destruct (Hgraph "bob" {["alice"]} eq_refl) as (adj' & Hadj' & Hb).
    exists adj. split; [exact Hadj|]. split; [exact Ha|].
    rewrite Hadj in Hadj'. injection Hadj' as <-. exact Hb.
  - apply (Hlog "alice" ["2024-01-01 09:00:00"]). reflexivity.
Defined.

(** ** Invariants of the running service *)

(** The association lists of a trie built by insertions are dictionaries. *)
Lemma unique_keys_tree_of (n : nat) (ws : list string) : unique_keys (tree_of n ws).
Proof.
  revert ws. induction n as [|n IH]; intros ws; simpl.
  - split; [constructor | done].
  - split.
    + unfold Dict.keys. rewrite map_map. simpl. rewrite map_id. apply NoDup_first_seen.
    + induction (first_seen (heads ws)) as [|c l IHl]; simpl; [done|]. by split.
Qed.

Lemma unique_keys_insert_all (names : list string) :
  unique_keys (Trie.root (Trie.insert_all Trie.new names)).
Proof. rewrite (root_insert_all _ names (Nat.le_refl _)). apply unique_keys_tree_of. Qed.

(** An insertion removes no word from the trie. *)
Lemma flat_map_set_mono (F : ascii * TrieNode -> list string)
    (c : ascii) (v : TrieNode) (d : list (ascii * TrieNode)) (w : string) :
  (forall u, Dict.get c d = Some u -> w ∈ F (c, u) -> w ∈ F (c, v)) ->
  w ∈ flat_map F d -> w ∈ flat_map F (Dict.set c v d).
Proof.
  induction d as [|[k u] d IH]; intros Hv Hw.
  - by apply elem_of_nil in Hw.
  - simpl in *. apply elem_of_app in Hw as [Hw|Hw];
      destruct (decide (k = c)) as [->|Hne]; simpl; apply elem_of_app; eauto.
Qed.

Lemma collect_insert_mono (node : TrieNode) (s p w : string) :
  w ∈ Trie._collect_all_words node p ->
  w ∈ Trie._collect_all_words (Trie.insert_loop node s) p.
Proof.
  revert node p. induction s as [|c r IH]; intros [e kids] p;
    cbn [Trie.insert_loop Trie._collect_all_words children is_end_of_word];
    intros [Hw|Hw]%elem_of_app; apply elem_of_app; auto.
  - left. destruct e; [done | by apply elem_of_nil in Hw].
  - right. apply flat_map_set_mono; [|done].
    intros u -> Hu. by apply IH.
Qed.

Lemma search_loop_insert_mono (node : TrieNode) (s chars P w : string) :
  w ∈ Trie.search_loop node chars P ->
  w ∈ Trie.search_loop (Trie.insert_loop node s) chars P.
Proof.
  revert node s. induction chars as [|a rest IH]; intros node s.
  - apply collect_insert_mono.
  - destruct s as [|c r]; [done|].
    cbn [Trie.search_loop Trie.insert_loop children].
    destruct (decide (c = a)) as [->|Hne].
    + rewrite get_set_eq. destruct (Dict.get a (children node)) as [u|].
      * apply IH.
      * by intros ?%elem_of_nil.
    + by rewrite get_set_ne.
Qed.

Lemma search_insert_mono (tr : Trie.t) (N P w : string) :
  w ∈ Trie.search tr P -> w ∈ Trie.search (Trie.insert tr N) P.
Proof. apply search_loop_insert_mono. Qed.

Lemma starts_with_refl (s : string) : starts_with s s = true.
Proof. apply starts_with_iff. exists EmptyString. by rewrite append_empty_r. Qed.

Lemma handle_indexed (st : State) (rq : Request) :
  indexed st -> indexed (handle st rq).1.
Proof.
  intros Hst. destruct rq as [data|name data|name|query|name1 name2| |name now|];
    simpl; try done.
  - unfold add_contact.
    repeat match goal with |- context [if ?b then _ else _] => destruct b end;
      try done.
    intros k Hk. simpl in *.
    destruct (decide (k = lower (str (get_name data)))) as [->|Hne].
    + split; [apply lower_idem|]. intros P HP HPk.
      apply search_after_insert; [done|]. unfold ci_prefix. by rewrite HP.
    + rewrite lookup_insert_ne in Hk by done. destruct (Hst k Hk) as [Hl Hs].
      split; [done|]. intros P HP HPk. by apply search_insert_mono, Hs.
  - destruct (update_contact_cases st name data)
      as [(_ & -> & _)|[(_ & -> & _)|(c & Hc & _ & ->)]]; try done.
    intros k Hk. apply Hst. simpl in Hk.
    destruct (decide (k = lower name)) as [->|Hne]; [by rewrite Hc|].
    by rewrite lookup_insert_ne in Hk.
  - destruct (delete_contact_frame st name) as (_ & _ & Ht & Hc).
    intros k Hk. rewrite Ht. apply Hst.
    destruct (decide (k = lower name)) as [->|Hne]; [|by rewrite <- Hc].
    rewrite delete_contact_removes in Hk. by destruct Hk.
  - unfold add_relationship.
    by destruct (contacts st !! lower name1), (contacts st !! lower name2).
  - unfold log_call. by destruct (contacts st !! lower name).
Qed.

Lemma run_indexed (rqs : list Request) : indexed (run init rqs).
Proof.
  induction rqs as [|rq rqs IH] using rev_ind.
  - intros k [c Hc]. simpl in Hc. by rewrite lookup_empty in Hc.
  - unfold run in *. rewrite fold_left_app. simpl. by apply handle_indexed.
Qed.

(** In a state reached from start-up, the search endpoint lists every
    contact whose key starts with the lowercased query. *)
Lemma search_contact_finds (rqs : list Request) (query : option string)
    (k : string) (c : Contact) :
  contacts (run init rqs) !! k = Some c ->
  starts_with (lower (default EmptyString query)) k = true ->
  exists entries,
    (search_contact (run init rqs) query).2 = (contacts_json entries, 200) /\
    entries !! k = Some c.
Proof.
  intros Hk Hq. eexists. split; [reflexivity|].
  destruct (run_indexed rqs k) as [Hl Hs]; [by eexists|].
  rewrite lookup_result_contacts, decide_True; [by rewrite Hl|].
  apply Hs; [apply lower_idem | done].
Qed.

(** ** More on the trie *)

(** Induction on a trie node, with the property known for every child. *)
Lemma TrieNode_ind (Q : TrieNode -> Prop) :
  (forall e kids, Forall (fun kv => Q kv.2) kids -> Q (Node e kids)) ->
  forall node, Q node.
Proof.
  intros step. fix IH 1. intros [e kids]. apply step.
  induction kids as [|[c child] kids IHkids]; constructor; [apply IH | exact IHkids].
Qed.

Lemma collect_extends (node : TrieNode) (p w : string) :
  w ∈ Trie._collect_all_words node p -> exists s, w = p +:+ s.
Proof.
  revert p. induction node as [e kids IH] using TrieNode_ind. intros p.
  cbn [Trie._collect_all_words]. intros [Hw|Hw]%elem_of_app.
  - destruct e; [|by apply elem_of_nil in Hw].
    apply list_elem_of_singleton in Hw as ->. exists EmptyString.
    by rewrite append_empty_r.
  - apply list_elem_of_In, in_flat_map in Hw as ([c child] & Hin & Hw).
    rewrite Forall_forall in IH. apply list_elem_of_In in Hin, Hw.
    destruct (IH _ Hin _ Hw) as [s ->]. exists (String c s). apply append_snoc.
Qed.

Lemma search_loop_extends (node : TrieNode) (chars P w : string) :
  w ∈ Trie.search_loop node chars P -> exists s, w = P +:+ s.
Proof.
  revert node. induction chars as [|a rest IH]; intros node; simpl.
  - apply collect_extends.
  - destruct (Dict.get a (children node)) as [child|]; [apply IH|].
    by intros ?%elem_of_nil.
Qed.

Lemma search_loop_new_node (chars P : string) : Trie.search_loop new_node chars P = [].
Proof. by destruct chars. Qed.

Lemma get_Some_elem {V : Type} (c : ascii) (v : V) (d : list (ascii * V)) :
  Dict.get c d = Some v -> (c, v) ∈ d.
Proof.
  induction d as [|[k u] d IH]; simpl; [done|].
  destruct (decide (k = c)) as [->|Hne].
  - intros [= ->]. by left.
  - intros H. right. by apply IH.
Qed.

Lemma flat_map_set_inv (F : ascii * TrieNode -> list string)
    (c : ascii) (v : TrieNode) (d : list (ascii * TrieNode)) (w : string) :
  w ∈ flat_map F (Dict.set c v d) -> w ∈ flat_map F d \/ w ∈ F (c, v).
Proof.
  induction d as [|[k u] d IH]; simpl.
  - rewrite app_nil_r. by right.
  - destruct (decide (k = c)) as [->|Hne]; simpl; rewrite !elem_of_app.
    + intros [Hw|Hw]; auto.
    + intros [Hw|Hw]; [auto|]. destruct (IH Hw); auto.
Qed.

Lemma collect_insert_inv (node : TrieNode) (s p w : string) :
  w ∈ Trie._collect_all_words (Trie.insert_loop node s) p ->
  w ∈ Trie._collect_all_words node p \/ w = p +:+ s.
Proof.
  revert node p. induction s as [|c r IH]; intros [e kids] p;
    cbn [Trie.insert_loop Trie._collect_all_words children is_end_of_word];
    rewrite !elem_of_app.
  - intros [Hw|Hw]; [|auto]. right.
    apply list_elem_of_singleton in Hw as ->. by rewrite append_empty_r.
  - intros [Hw|Hw]; [auto|].
    apply flat_map_set_inv in Hw as [Hw|Hw]; [auto|].
    apply IH in Hw as [Hw| ->]; [|right; apply append_snoc].
    destruct (Dict.get c kids) as [u|] eqn:E; [|by apply elem_of_nil in Hw].
    left. right. apply list_elem_of_In, in_flat_map. exists (c, u).
    split; apply list_elem_of_In; [by apply get_Some_elem | done].
Qed.

Lemma search_loop_insert_inv (node : TrieNode) (s chars P w : string) :
  w ∈ Trie.search_loop (Trie.insert_loop node s) chars P ->
  w ∈ Trie.search_loop node chars P \/ exists t, s = chars +:+ t /\ w = P +:+ t.
Proof.
  revert node s. induction chars as [|a rest IH]; intros node s.
  - intros [Hw| ->]%collect_insert_inv; [by left|]. right. by exists s.
  - destruct s as [|c r]; [by left|].
    cbn [Trie.search_loop Trie.insert_loop children].
    destruct (decide (c = a)) as [->|Hne].
    + rewrite get_set_eq. intros [Hw|(t & -> & ->)]%IH.
      * destruct (Dict.get a (children node)) as [u|]; [by left|].
        by rewrite search_loop_new_node in Hw; apply elem_of_nil in Hw.
      * right. by exists t.
    + rewrite get_set_ne by done. by left.
Qed.

Lemma NoDup_search (names : list string) (P : string) :
  NoDup (Trie.search (Trie.insert_all Trie.new names) P).
Proof.
  rewrite search_insert_all. unfold search_order.
  apply NoDup_fmap_2; [apply _ | apply NoDup_preorder].
Qed.

(** X1: whatever the trie holds, every word that [search(P)] returns is [P],
    written as the caller wrote it, followed by a (possibly empty) rest. *)
Theorem search_results_extend_prefix (tr : Trie.t) (P w : string) :
  w ∈ Trie.search tr P -> exists s, w = P +:+ s.
Proof. apply search_loop_extends. Qed.

Lemma search_results_extend_prefix_witness : exists s, "ALice" = "AL" +:+ s.
Proof.
  apply (search_results_extend_prefix (Trie.insert Trie.new "Alice") "AL" "ALice").
  by left.
Defined.

(** X2: in any trie, [insert(N)] adds to the result of [search(P)] the one
    word [P] followed by what remains of the lowercased [N] after the
    lowercased [P], when the latter is a prefix of the former, and changes
    nothing else: no word is lost and no other word appears. *)
Theorem insert_changes_search_by_one_word (tr : Trie.t) (N P w : string) :
  w ∈ Trie.search (Trie.insert tr N) P <->
  w ∈ Trie.search tr P \/ exists s, lower N = lower P +:+ s /\ w = P +:+ s.
Proof.
  split.
  - apply search_loop_insert_inv.
  - intros [Hw|(s & Hs & ->)]; [by apply search_insert_mono|].
    unfold Trie.search, Trie.insert. simpl. rewrite Hs.
    apply search_loop_insert_loop.
Qed.

(** X3: after the insertion of [names] into a new trie, [search(P)] returns
    exactly the words [P + s] for which some inserted name, lowercased, is
    the lowercased [P] followed by [s]; each such word comes once. *)
Theorem search_exact_after_insertions (names : list string) (P : string) :
  (forall w, w ∈ Trie.search (Trie.insert_all Trie.new names) P <->
             exists N s, N ∈ names /\ lower N = lower P +:+ s /\ w = P +:+ s) /\
  NoDup (Trie.search (Trie.insert_all Trie.new names) P).
Proof. split; [intros w; apply elem_of_search | apply NoDup_search]. Qed.

(** X4: two insertion histories with the same names up to case give, for
    every prefix, the same words, possibly in another order. *)
Theorem search_same_names_same_words (names1 names2 : list string) (P : string) :
  (forall x, x ∈ map lower names1 <-> x ∈ map lower names2) ->
  Trie.search (Trie.insert_all Trie.new names1) P ≡ₚ
  Trie.search (Trie.insert_all Trie.new names2) P.
Proof.
  intros Hsame. apply NoDup_Permutation; [apply NoDup_search..|].
  assert (Hlow : forall names N s, N ∈ names -> lower N = s -> s ∈ map lower names).
  { intros names N s HN <-. by apply list_elem_of_In, in_map, list_elem_of_In. }
  assert (Hback : forall names s, s ∈ map lower names -> exists N, N ∈ names /\ lower N = s).
  { intros names s (N & HN & Hin)%list_elem_of_In%in_map_iff. exists N.
    by rewrite list_elem_of_In. }
  intros w. rewrite !elem_of_search. split; intros (N & s & HN & Hl & ->).
  - destruct (Hback names2 (lower N)) as (N' & HN' & HlN');
      [apply Hsame; by eapply Hlow|].
    exists N', s. by rewrite HlN'.
  - destruct (Hback names1 (lower N)) as (N' & HN' & HlN');
      [apply Hsame; by eapply Hlow|].
    exists N', s. by rewrite HlN'.
Qed.

Lemma search_same_names_same_words_witness :
  Trie.search (Trie.insert_all Trie.new ["Bob"; "alice"; "BOB"]) "" ≡ₚ
  Trie.search (Trie.insert_all Trie.new ["ALICE"; "bob"]) "".
Proof.
  apply (search_same_names_same_words ["Bob"; "alice"; "BOB"] ["ALICE"; "bob"]).
  intros x. change (x ∈ ["bob"; "alice"; "bob"] <-> x ∈ ["alice"; "bob"]).
  rewrite !elem_of_cons, !elem_of_nil. tauto.
Defined.

(** ** The email pattern *)

Lemma span_spec (f : ascii -> bool) (s run rest : string) :
  span f s = (run, rest) ->
  s = run +:+ rest /\ all_chars f run = true /\
  match rest with EmptyString => True | String c _ => f c = false end.
Proof.
  revert run rest. induction s as [|c s IH]; intros run rest; simpl.
  - by intros [= <- <-].
  - destruct (f c) eqn:Ec.
    + destruct (span f s) as [run' rest'] eqn:Es. intros [= <- <-].
      destruct (IH _ _ eq_refl) as (-> & Hall & Hrest).
      split; [done|]. split; [|done]. simpl. by rewrite Ec.
    + intros [= <- <-]. by rewrite Ec.
Qed.

Lemma span_app (f : ascii -> bool) (run rest : string) :
  all_chars f run = true ->
  match rest with EmptyString => True | String c _ => f c = false end ->
  span f (run +:+ rest) = (run, rest).
Proof.
  intros Hall Hrest. induction run as [|c run IH].
  - destruct rest as [|c r]; [done|]. simpl. change (EmptyString +:+ String c r)
      with (String c r). simpl. by rewrite Hrest.
  - simpl in Hall. apply andb_true_iff in Hall as [Hc Hall].
    rewrite append_cons. simpl. by rewrite Hc, IH.
Qed.

(** X5: [validate_email] accepts exactly the strings made of a non-empty
    local part of letters, digits and [_.+-], an [@], a non-empty domain of
    letters, digits and [-], a dot, a non-empty suffix of letters, digits,
    [-] and dots, and then nothing or one line feed. *)
Theorem validate_email_accepts_shape (s : string) :
  validate_email s = true <-> email_shape s.
Proof.
  unfold validate_email, email_shape. split.
  - destruct (span local_class s) as [loc r1] eqn:E1.
    destruct loc as [|l0 loc]; [done|].
    destruct r1 as [|a r2]; [done|].
    destruct (decide (a = "@"%char)) as [->|Hne];
      [|by destruct a as [[] [] [] [] [] [] [] []]].
    destruct (span domain_class r2) as [dom r3] eqn:E2.
    destruct dom as [|d0 dom]; [by destruct r3|].
    destruct r3 as [|b r4]; [done|].
    destruct (decide (b = "."%char)) as [->|Hne];
      [|by destruct b as [[] [] [] [] [] [] [] []]].
    destruct (span suffix_class r4) as [suf r5] eqn:E3.
    destruct suf as [|s0 suf]; [done|].
    intros Hnl. apply span_spec in E1 as (-> & H1 & _).
    apply span_spec in E2 as (-> & H2 & _). apply span_spec in E3 as (-> & H3 & _).
    exists (String l0 loc), (String d0 dom), (String s0 suf), r5.
    repeat split; try done.
    apply orb_true_iff in Hnl as [Hnl|Hnl]; apply bool_decide_eq_true in Hnl; auto.
  - intros (loc & dom & suf & nl & -> & Hl & Hlc & Hd & Hdc & Hs & Hsc & Hnl).
    rewrite (span_app local_class loc) by done.
    destruct loc as [|l0 loc]; [done|].
    rewrite (span_app domain_class dom) by done.
    destruct dom as [|d0 dom]; [done|].
    rewrite (span_app suffix_class suf) by (by destruct Hnl as [-> | ->]).
    destruct suf as [|s0 suf]; [done|].
    by destruct Hnl as [-> | ->].
Qed.

(** ** Creating, deleting and calling contacts *)

(** The two outcomes of [add_contact]. *)
Lemma add_contact_cases (st : State) (data : Json) :
  let name := str (get_name data) in
  let new_phone := str (get_phone data) in
  let new_email := default EmptyString (get_email data) in
  let acceptable :=
    truthy (get_name data) = true /\ truthy (get_phone data) = true /\
    validate_phone new_phone = true /\
    (new_email = EmptyString \/ validate_email new_email = true) in
  (~ acceptable /\ (add_contact st data).1 = st /\ status (add_contact st data).2 = 400) \/
  (acceptable /\
   add_contact st data =
   (mkState (<[lower name := mkContact new_phone new_email
                               (default EmptyString (get_address data))
                               (default EmptyString (get_group data))
                               (default false (get_favorite data))]> (contacts st))
            (call_log st) (relationships st) (Trie.insert (trie st) name),
    (message "Contact added successfully", 201))).
Proof.
  cbv zeta. unfold add_contact.
  destruct (truthy (get_name data)) eqn:Tn; simpl;
    [|left; split; [intros (? & _); done | done]].
  destruct (truthy (get_phone data)) eqn:Tp; simpl;
    [|left; split; [intros (_ & ? & _); done | done]].
  destruct (validate_phone (str (get_phone data))) eqn:Vp; simpl;
    [|left; split; [intros (_ & _ & ? & _); done | done]].
  case_bool_decide as He; simpl.
  - right. split; [|done]. repeat split. by left.
  - destruct (validate_email (default EmptyString (get_email data))) eqn:Ve; simpl.
    + right. split; [|done]. repeat split. by right.
    + left. split; [|done]. intros (_ & _ & _ & [?|?]); done.
Qed.


(** X7: in any state, a contact that [add_contact] has accepted is returned
    by the search endpoint for every query that is a case-insensitive prefix
    of its name, under its lowercased name and with the record built from
    the request, whatever was stored under that key before. *)
Theorem added_contact_is_found (st : State) (data : Json) (query : option string) :
  status (add_contact st data).2 = 201 ->
  ci_prefix (default EmptyString query) (str (get_name data)) = true ->
  exists entries,
    (search_contact (add_contact st data).1 query).2 = (contacts_json entries, 200) /\
    entries !! lower (str (get_name data)) =
      Some (mkContact (str (get_phone data))
                      (default EmptyString (get_email data))
                      (default EmptyString (get_address data))
                      (default EmptyString (get_group data))
                      (default false (get_favorite data))).
Proof.
  intros Hok Hq. destruct (add_contact_cases st data) as [(_ & _ & Hcode)|(_ & Heq)].
  { rewrite Hcode in Hok. discriminate Hok. }
  rewrite Heq. eexists. split; [reflexivity|]. simpl.
  rewrite lookup_result_contacts, decide_True.
  - by rewrite lower_idem, lookup_insert_eq.
  - apply search_after_insert; [apply lower_idem|].
    unfold ci_prefix in *. by rewrite lower_idem.
Qed.

Lemma added_contact_is_found_witness :
  exists entries,
    (search_contact (add_contact with_alice bob_data).1 (Some "BO")).2
      = (contacts_json entries, 200) /\
    entries !! "bob" = Some (mkContact "0987654321" EmptyString EmptyString EmptyString false).
Proof.
  apply (added_contact_is_found with_alice bob_data (Some "BO")); reflexivity.
Defined.

(** X8: when the key is new, [delete_contact] after an accepted
    [add_contact] gives back the contacts as they were; the call log and the
    graph are untouched by both. *)
Theorem delete_undoes_add_in_store (st : State) (data : Json) (name : string) :
  contacts st !! lower (str (get_name data)) = None ->
  status (add_contact st data).2 = 201 ->
  lower name = lower (str (get_name data)) ->
  let st' := (delete_contact (add_contact st data).1 name).1 in
  contacts st' = contacts st /\ call_log st' = call_log st /\
  relationships st' = relationships st.
Proof.
  intros Hnew Hok Hname. cbv zeta.
  destruct (add_contact_cases st data) as [(_ & _ & Hcode)|(_ & Heq)].
  { rewrite Hcode in Hok. discriminate Hok. }
  rewrite Heq. unfold delete_contact. simpl. rewrite Hname, lookup_insert_eq. simpl.
  by rewrite delete_insert_eq, delete_id.
Qed.

Lemma delete_undoes_add_in_store_witness :
  contacts (delete_contact (add_contact with_alice bob_data).1 "BOB").1 = contacts with_alice /\
  call_log (delete_contact (add_contact with_alice bob_data).1 "BOB").1 = call_log with_alice /\
  relationships (delete_contact (add_contact with_alice bob_data).1 "BOB").1
    = relationships with_alice.
Proof.
  apply (delete_undoes_add_in_store with_alice bob_data "BOB"); reflexivity.
Defined.

(** X9: once [delete_contact(name)] has run, every handler that looks the
    contact up, under any spelling of the name, answers 404 and changes
    nothing: a second delete, an update, a call, and a relationship with the
    name on either side. *)
Theorem deleted_contact_is_unknown (st : State) (name name' : string) :
  lower name' = lower name ->
  let st1 := (delete_contact st name).1 in
  delete_contact st1 name' = (st1, (error "Contact not found", 404)) /\
  (forall data, update_contact st1 name' data = (st1, (error "Contact not found", 404))) /\
  (forall now, log_call st1 name' now = (st1, (error "Contact not found", 404))) /\
  (forall other,
     add_relationship st1 name' other = (st1, (error "One or both contacts not found", 404)) /\
     add_relationship st1 other name' = (st1, (error "One or both contacts not found", 404))).
Proof.
  intros Hname. cbv zeta. pose proof (delete_contact_removes st name) as Hgone.
  rewrite <- Hname in Hgone. split; [|split; [|split]].
  - unfold delete_contact at 1. by rewrite Hgone.
  - intros data. unfold update_contact. by rewrite Hgone.
  - intros now. unfold log_call. by rewrite Hgone.
  - intros other. split; apply add_relationship_missing; auto.
Qed.

Lemma deleted_contact_is_unknown_witness :
  delete_contact (delete_contact with_alice "alice").1 "ALICE"
    = ((delete_contact with_alice "alice").1, (error "Contact not found", 404)).
Proof.
  apply (deleted_contact_is_unknown with_alice "alice" "ALICE"). reflexivity.
Defined.

Lemma log_call_ok (st : State) (name now : string) :
  is_Some (contacts st !! lower name) ->
  log_call st name now =
  (mkState (contacts st)
           (<[lower name := calls (call_log st) (lower name) ++ [now]]> (call_log st))
           (relationships st) (trie st),
   (message ("Call logged for " +:+ name), 200)).
Proof. intros [c Hc]. unfold log_call. by rewrite Hc. Qed.

(** X10: calls to an existing contact are logged in call order: after
    [log_call] at the times [times], one after the other, the contact's log
    is the one before followed by [times]; the logs of the other keys, the
    contacts, the graph and the trie are unchanged. *)
Theorem calls_are_logged_in_order (st : State) (name : string) (times : list string) :
  is_Some (contacts st !! lower name) ->
  let st' := fold_left (fun s now => (log_call s name now).1) times st in
  calls (call_log st') (lower name) = calls (call_log st) (lower name) ++ times /\
  (forall k, k ≠ lower name -> call_log st' !! k = call_log st !! k) /\
  contacts st' = contacts st /\ relationships st' = relationships st /\
  trie st' = trie st.
Proof.
  intros Hc. cbv zeta. revert st Hc. induction times as [|now times IH]; intros st Hc.
  - simpl. by rewrite app_nil_r.
  - simpl. rewrite log_call_ok by done. simpl.
    set (st1 := mkState _ _ _ _).
    destruct (IH st1 Hc) as (Hlog & Hother & Hcon & Hrel & Htrie).
    rewrite Hlog, Hcon, Hrel, Htrie. unfold st1, calls at 1. simpl.
    rewrite lookup_insert_eq. simpl. rewrite <- app_assoc. split; [done|].
    split; [|done]. intros k Hk. rewrite Hother by done. simpl.
    by rewrite lookup_insert_ne.
Qed.

Lemma calls_are_logged_in_order_witness :
  calls (call_log (fold_left (fun s now => (log_call s "Alice" now).1)
                             ["09:00"; "09:05"] related_and_called)) (lower "Alice")
  = calls (call_log related_and_called) (lower "Alice") ++ ["09:00"; "09:05"].
Proof.
  apply (calls_are_logged_in_order related_and_called "Alice" ["09:00"; "09:05"]).
  eexists. reflexivity.
Defined.

(** ** More on updates *)

Lemma contact_eq (c d : Contact) :
  phone c = phone d -> email c = email d -> address c = address d ->
  group c = group d -> favorite c = favorite d -> c = d.
Proof. destruct c, d; simpl; by intros -> -> -> -> ->. Qed.

Lemma apply_update_idem (c : Contact) (data : Json) :
  apply_update (apply_update c data) data = apply_update c data.
Proof.
  destruct (apply_update_fields (apply_update c data) data) as (Hp & He & Ha & Hg & Hf).
  destruct (apply_update_fields c data) as (Hp' & He' & Ha' & Hg' & Hf').
  apply contact_eq.
  - rewrite Hp, Hp'. by destruct (truthy (get_phone data)).
  - rewrite He, He'. by destruct (truthy (get_email data)).
  - rewrite Ha, Ha'. by destruct (truthy (get_address data)).
  - rewrite Hg, Hg'. by destruct (truthy (get_group data)).
  - rewrite Hf, Hf'. by destruct (get_favorite data).
Qed.

(** X11: sending the same update a second time changes nothing and gets the
    same answer, whether the first one was applied, refused or addressed to
    an unknown contact. *)
Theorem update_twice_is_update_once (st : State) (name : string) (data : Json) :
  update_contact (update_contact st name data).1 name data = update_contact st name data.
Proof.
  unfold update_contact at 2 3.
  destruct (contacts st !! lower name) as [c|] eqn:Hc.
  - destruct (truthy (get_phone data) && negb (validate_phone (str (get_phone data))))
      eqn:Hp; simpl.
    { unfold update_contact. by rewrite Hc, Hp. }
    destruct (truthy (get_email data) && negb (validate_email (str (get_email data))))
      eqn:He; simpl.
    { unfold update_contact. by rewrite Hc, Hp, He. }
    unfold update_contact. simpl. rewrite lookup_insert_eq, Hp, He.
    by rewrite apply_update_idem, insert_insert_eq.
  - simpl. unfold update_contact. by rewrite Hc.
Qed.

(** X12: [update_contact] neither creates nor removes a contact: the set of
    keys is the same after every update, and an update of an unknown name is
    answered with 404 and leaves the state as it was. *)
Theorem update_keeps_the_keys (st : State) (name : string) (data : Json) :
  dom (contacts (update_contact st name data).1) = dom (contacts st) /\
  (contacts st !! lower name = None ->
   update_contact st name data = (st, (error "Contact not found", 404))).
Proof.
  split.
  - destruct (update_contact_cases st name data)
      as [(_ & -> & _)|[(_ & -> & _)|(c & Hc & _ & ->)]]; try done.
    simpl. rewrite dom_insert_L. apply (elem_of_dom_2 (D := gset string)) in Hc.
    set_solver.
  - intros Hc. unfold update_contact. by rewrite Hc.
Qed.

Lemma update_keeps_the_keys_witness :
  update_contact with_alice "bob" empty_fields
    = (with_alice, (error "Contact not found", 404)).
Proof.
  apply (proj2 (update_keeps_the_keys with_alice "bob" empty_fields)). reflexivity.
Defined.

(** ** Invariants of every run *)


Lemma add_edge_nonempty (g : gmap string (gset string)) (key1 key2 k : string)
    (ns : gset string) :
  (forall k ns, g !! k = Some ns -> ns ≠ ∅) ->
  add_edge g key1 key2 !! k = Some ns -> ns ≠ ∅.
Proof.
  intros Hg. unfold add_edge. rewrite !lookup_insert.
  repeat case_decide; intros Hk; simplify_eq; first [by eapply Hg | set_solver].
Qed.

Lemma handle_no_empty_entries (st : State) (rq : Request) :
  no_empty_entries st -> no_empty_entries (handle st rq).1.
Proof.
  intros [Hg Hl]. destruct rq as [data|name data|name|query|name1 name2| |name now|];
    simpl; try done.
  - by destruct (add_contact_cases st data) as [(_ & -> & _)|(_ & ->)].
  - by destruct (update_contact_cases st name data)
      as [(_ & -> & _)|[(_ & -> & _)|(c & _ & _ & ->)]].
  - destruct (delete_contact_frame st name) as (Hlog & Hrel & _).
    split; intros k x; [rewrite Hrel; apply Hg | rewrite Hlog; apply Hl].
  - unfold add_relationship.
    destruct (contacts st !! lower name1), (contacts st !! lower name2); try done.
    split; [|done]. simpl. intros k ns. by apply add_edge_nonempty.
  - unfold log_call. destruct (contacts st !! lower name); [|done].
    split; [done|]. simpl. intros k ts. rewrite lookup_insert.
    case_decide; [|apply Hl]. intros [= <-]. by destruct (calls _ _).
Qed.


(** X14: in every state reached from an empty start, a key of the graph has
    at least one neighbour and a key of the call log at least one call: the
    two [defaultdict]s are only ever read at a key that is then written. *)
Theorem no_key_without_entries (rqs : list Request) : no_empty_entries (run init rqs).
Proof.
  induction rqs as [|rq rqs IH] using rev_ind.
  - split; intros k x Hk; simpl in Hk; by rewrite lookup_empty in Hk.
  - unfold run in *. rewrite fold_left_app. simpl. by apply handle_no_empty_entries.
Qed.

(** X15: the adjacency lists that [get_graph] returns in a state reached
    from an empty start are symmetric and without repetition: when [b] is
    listed under [a], the key [b] is listed too and [a] is in its list. *)
Theorem graph_dump_is_symmetric (rqs : list Request)
    (adjacency : gmap string (list string)) (a b : string) (la : list string) :
  (get_graph (run init rqs)).2 = (graph_json adjacency, 200) ->
  adjacency !! a = Some la -> b ∈ la ->
  NoDup la /\ exists lb, adjacency !! b = Some lb /\ a ∈ lb.
Proof.
  intros [= <-]. rewrite !lookup_fmap.
  destruct (relationships (run init rqs) !! a) as [sa|] eqn:Ha; [|done].
  intros [= <-] Hb%elem_of_elements. split; [apply NoDup_elements|].
  pose proof (run_symmetric rqs a b) as Hsym. unfold neighbors in Hsym.
  rewrite Ha in Hsym. specialize (Hsym Hb).
  destruct (relationships (run init rqs) !! b) as [sb|] eqn:Hsb; [|by apply elem_of_empty in Hsym].
  exists (elements sb). split; [done|]. by apply elem_of_elements.
Qed.

Lemma graph_dump_is_symmetric_witness :
  NoDup ["bob"] /\
  exists lb, (elements <$> relationships related_and_called) !! "bob" = Some lb /\
             "alice" ∈ lb.
Proof.
  apply (graph_dump_is_symmetric
           [POST_contacts alice_data; POST_contacts bob_data;
            POST_contacts_relationship "Alice" "Bob";
            POST_call "alice" "2024-01-01 09:00:00"]
           (elements <$> relationships related_and_called) "alice" "bob" ["bob"]).
  - reflexivity.
  - vm_compute. reflexivity.
  - by left.
Defined.

(** ** What the search endpoint returns *)

Lemma handle_trie (st : State) (rq : Request) :
  trie (handle st rq).1 = trie st \/
  exists N, trie (handle st rq).1 = Trie.insert (trie st) N.
Proof.
  destruct rq as [data|name data|name|query|name1 name2| |name now|]; simpl; auto.
  - destruct (add_contact_cases st data) as [(_ & -> & _)|(_ & ->)]; eauto.
  - destruct (update_contact_cases st name data)
      as [(_ & -> & _)|[(_ & -> & _)|(c & _ & _ & ->)]]; auto.
  - destruct (delete_contact_frame st name) as (_ & _ & -> & _). auto.
  - unfold add_relationship.
    destruct (contacts st !! lower name1), (contacts st !! lower name2); auto.
  - unfold log_call. destruct (contacts st !! lower name); auto.
Qed.

(** The trie of a run is the trie of the names added so far. *)
Lemma run_trie (rqs : list Request) :
  exists names, trie (run init rqs) = Trie.insert_all Trie.new names.
Proof.
  induction rqs as [|rq rqs [names IH]] using rev_ind.
  - by exists [].
  - unfold run in *. rewrite fold_left_app. simpl.
    destruct (handle_trie (fold_left (fun st rq => (handle st rq).1) rqs init) rq)
      as [->|[N ->]].
    + by exists names.
    + exists (names ++ [N]). by rewrite insert_all_snoc, IH.
Qed.

(** X16: in a state reached from an empty start, the search endpoint returns
    exactly the contacts of the store whose key starts with the lowercased
    query, each under its key and with its current record: nothing deleted,
    nothing missing. *)
Theorem search_endpoint_exact (rqs : list Request) (query : option string) :
  exists entries,
    (search_contact (run init rqs) query).2 = (contacts_json entries, 200) /\
    forall k c,
      entries !! k = Some c <->
      contacts (run init rqs) !! k = Some c /\
      starts_with (lower (default EmptyString query)) k = true.
Proof.
  eexists. split; [reflexivity|]. intros k c. split.
  - rewrite lookup_result_contacts. destruct (decide _) as [Hin|]; [|done].
    destruct (run_trie rqs) as [names Hnames]. rewrite Hnames in Hin.
    apply elem_of_search in Hin as (N & s & _ & HN & ->).
    rewrite lower_idem in HN. rewrite <- HN, lower_idem. intros Hc.
    split; [done|]. apply starts_with_iff. by exists s.
  - intros [Hc Hq]. destruct (search_contact_finds rqs query k c Hc Hq)
      as (entries & [= <-] & Hk). exact Hk.
Qed.

(** ** Favourites *)



(** ** Advanced search *)





Lemma lower_empty_iff (s : string) : lower s = EmptyString <-> s = EmptyString.
Proof. by destruct s. Qed.

Lemma truthy_lower (s s' : string) :
  lower s = lower s' -> truthy (Some s) = truthy (Some s').
Proof. destruct s, s'; simpl; done. Qed.

(** X19: [advanced_search] returns the whole store when no parameter has a
    non-empty value, and its answer does not depend on the case of the
    [email] and [address] parameters. *)
Theorem advanced_search_ignores_case (st : State) :
  (forall phone_arg email_arg address_arg,
     truthy phone_arg = false -> truthy email_arg = false -> truthy address_arg = false ->
     (advanced_search st phone_arg email_arg address_arg).2
       = (contacts_json (contacts st), 200)) /\
  (forall phone_arg e e' a a',
     lower e = lower e' -> lower a = lower a' ->
     advanced_search st phone_arg (Some e) (Some a)
       = advanced_search st phone_arg (Some e') (Some a')).
Proof.
  split.
  - intros p e a Hp He Ha. unfold advanced_search. simpl. f_equal. f_equal.
    apply map_filter_id. intros k c _. unfold advanced_match. simpl.
    by rewrite Hp, He, Ha.
  - intros p e e' a a' He Ha. unfold advanced_search, advanced_match.
    rewrite (truthy_lower e e' He), (truthy_lower a a' Ha). simpl.
    by rewrite He, Ha.
Qed.

Lemma advanced_search_ignores_case_witness :
  (advanced_search with_alice_bob (Some EmptyString) None None).2
    = (contacts_json (contacts with_alice_bob), 200) /\
  advanced_search with_alice_bob None (Some "EXAMPLE") (Some "main")
    = advanced_search with_alice_bob None (Some "example") (Some "MAIN").
Proof.
  split.
  - apply (proj1 (advanced_search_ignores_case with_alice_bob)); reflexivity.
  - apply (proj2 (advanced_search_ignores_case with_alice_bob)); reflexivity.
Defined.

(** ** The files *)

Lemma handle_unsaved (st : State) (rq : Request) :
  saves rq (handle st rq).2 = false -> (handle st rq).1 = st.
Proof.
  destruct rq as [data|name data|name|query|name1 name2| |name now|]; simpl; try done.
  - by destruct (add_contact_cases st data) as [(_ & -> & _)|(_ & ->)].
  - by destruct (update_contact_cases st name data)
      as [(_ & -> & _)|[(_ & -> & _)|(c & _ & Hcode & _)]]; [..|rewrite Hcode].
  - unfold delete_contact. by destruct (contacts st !! lower name).
  - unfold add_relationship.
    by destruct (contacts st !! lower name1), (contacts st !! lower name2).
  - unfold log_call. by destruct (contacts st !! lower name).
Qed.

Lemma serve_fst (st : State) (fs : Files) (rq : Request) :
  (serve (st, fs) rq).1 =
  ((handle st rq).1,
   if saves rq (handle st rq).2 then save_data (handle st rq).1 else fs).
Proof. unfold serve. simpl. by destruct (handle st rq). Qed.

Lemma serve_all_cons (sf : State * Files) (rq : Request) (rqs : list Request) :
  serve_all sf (rq :: rqs) = serve_all (serve sf rq).1 rqs.
Proof. reflexivity. Qed.

Lemma serve_all_mirror (rqs : list Request) (st : State) (fs : Files) :
  load_data fs = (contacts st, call_log st) ->
  load_data (serve_all (st, fs) rqs).2 =
  (contacts (serve_all (st, fs) rqs).1, call_log (serve_all (st, fs) rqs).1).
Proof.
  revert st fs. induction rqs as [|rq rqs IH]; intros st fs Hfs; [done|].
  rewrite serve_all_cons, serve_fst. apply IH.
  destruct (saves rq (handle st rq).2) eqn:Es; [done|].
  by rewrite (handle_unsaved st rq Es).
Qed.

Lemma serve_all_run (rqs : list Request) (st : State) (fs : Files) :
  (serve_all (st, fs) rqs).1 = run st rqs.
Proof.
  revert st fs. induction rqs as [|rq rqs IH]; intros st fs; [done|].
  rewrite serve_all_cons, serve_fst. apply IH.
Qed.

Lemma load_data_eta (fs : Files) : load_data fs = ((load_data fs).1, (load_data fs).2).
Proof. by destruct (load_data fs). Qed.

(** X20: whatever the files held at start-up and whatever requests were
    served since, [load_data] on the files as they are now gives the
    contacts and the call log that are in memory: every change to them is on
    disk when its request has been answered. The states are those of [run],
    so the results on handlers apply to the served requests. *)
Theorem files_mirror_contacts_and_calls (fs : Files) (order : list string)
    (rqs : list Request) :
  let sf := serve_all (startup fs order, fs) rqs in
  load_data sf.2 = (contacts sf.1, call_log sf.1) /\
  sf.1 = run (startup fs order) rqs.
Proof.
  cbv zeta. split; [|apply serve_all_run].
  apply serve_all_mirror. apply load_data_eta.
Qed.

(** X21: a restart keeps the contacts and the call log and nothing else:
    the state built by [startup] from the files left by any sequence of
    requests has the same contacts and call log, no relationship at all, and
    a trie that holds the keys of the current contacts only, so that names
    deleted before the restart are no longer returned by [search]. *)
Theorem restart_keeps_contacts_and_calls_only (fs : Files) (order order' : list string)
    (rqs : list Request) :
  let sf := serve_all (startup fs order, fs) rqs in
  (forall k, k ∈ order' <-> is_Some (contacts sf.1 !! k)) ->
  let st' := startup sf.2 order' in
  contacts st' = contacts sf.1 /\ call_log st' = call_log sf.1 /\
  relationships st' = ∅ /\
  (forall P w,
     w ∈ Trie.search (trie st') P <->
     exists k s, is_Some (contacts sf.1 !! k) /\ lower k = lower P +:+ s /\ w = P +:+ s).
Proof.
  cbv zeta. intros Horder.
  pose proof (serve_all_mirror rqs (startup fs order) fs (load_data_eta fs)) as Hm.
  set (sf := serve_all (startup fs order, fs) rqs) in *.
  unfold startup. simpl. rewrite Hm. simpl.
  split; [done|]. split; [done|]. split; [done|].
  intros P w. rewrite elem_of_search. by setoid_rewrite Horder.
Qed.

(** X22: when either file is missing at start-up the service starts empty,
    also when [contacts.json] exists; the first accepted [add_contact] then
    rewrites both files, and the contacts file holds the new contact
    alone. *)
Theorem missing_file_starts_empty (fs : Files) (order : list string) :
  contacts_file fs = None \/ call_log_file fs = None ->
  (forall k, k ∈ order <-> is_Some ((load_data fs).1 !! k)) ->
  startup fs order = init /\
  forall data,
    status (add_contact init data).2 = 201 ->
    (serve (startup fs order, fs) (POST_contacts data)).1.2 =
    mkFiles (Some (<[lower (str (get_name data)) :=
                       mkContact (str (get_phone data))
                                 (default EmptyString (get_email data))
                                 (default EmptyString (get_address data))
                                 (default EmptyString (get_group data))
                                 (default false (get_favorite data))]> ∅))
            (Some ∅).
Proof.
  intros Hmiss Horder.
  assert (Hload : load_data fs = (∅, ∅)).
  { unfold load_data. destruct Hmiss as [-> | ->]; [done|].
    by destruct (contacts_file fs). }
  assert (Hstart : startup fs order = init).
  { unfold startup. rewrite Hload in *. simpl in *.
    assert (order = []) as ->; [|done].
    apply elem_of_nil_inv. intros k [c Hc]%Horder. by rewrite lookup_empty in Hc. }
  split; [done|]. intros data Hok. rewrite Hstart. unfold serve. simpl.
  destruct (add_contact_cases init data) as [(_ & _ & Hcode)|(_ & Heq)].
  { rewrite Hcode in Hok. discriminate Hok. }
  by rewrite Heq.
Qed.

Lemma restart_keeps_contacts_and_calls_only_witness :
  contacts (startup (serve_all (startup no_files [], no_files) add_two_delete_one).2 ["bob"])
    = contacts (serve_all (startup no_files [], no_files) add_two_delete_one).1 /\
  call_log (startup (serve_all (startup no_files [], no_files) add_two_delete_one).2 ["bob"])
    = call_log (serve_all (startup no_files [], no_files) add_two_delete_one).1 /\
  relationships
    (startup (serve_all (startup no_files [], no_files) add_two_delete_one).2 ["bob"]) = ∅.
Proof.
  pose proof (restart_keeps_contacts_and_calls_only no_files [] ["bob"] add_two_delete_one)
    as Hrestart.
  cbv zeta in Hrestart.
  destruct Hrestart as (Hc & Hl & Hr & _);
    [|split; [exact Hc | split; [exact Hl | exact Hr]]].
  intros k.
  change (contacts (serve_all (startup no_files [], no_files) add_two_delete_one).1)
    with (delete "alice"
            (<["bob" := mkContact "0987654321" EmptyString EmptyString EmptyString false]>
               (<["alice" := mkContact "1234567890" "alice@example.org" "1 Main St"
                                       EmptyString true]> (∅ : gmap string Contact)))).
  rewrite list_elem_of_singleton. split.
  - intros ->. by eexists.
  - intros [c Hc]. destruct (decide (k = "alice")) as [->|Ha].
    + by rewrite lookup_delete_eq in Hc.
    + rewrite lookup_delete_ne in Hc by done.
      destruct (decide (k = "bob")) as [->|Hb]; [done|].
      by rewrite !lookup_insert_ne, lookup_empty in Hc.
Defined.

Lemma missing_file_starts_empty_witness : startup contacts_file_only [] = init.
Proof.
  apply (missing_file_starts_empty contacts_file_only []).
  - by right.
  - intros k. split; [by intros ?%elem_of_nil|].
    intros [c Hc]. change ((∅ : gmap string Contact) !! k = Some c) in Hc.
    by rewrite lookup_empty in Hc.
Defined.

(** ** Keys are lowercase, and the trie never forgets *)

Lemma add_edge_lowercase (g : gmap string (gset string)) (key1 key2 k : string)
    (ns : gset string) :
  (forall k ns, g !! k = Some ns -> lower k = k /\ forall x, x ∈ ns -> lower x = x) ->
  lower key1 = key1 -> lower key2 = key2 ->
  add_edge g key1 key2 !! k = Some ns ->
  lower k = k /\ forall x, x ∈ ns -> lower x = x.
Proof.
  intros Hg H1 H2.
  assert (Hn : forall a x, x ∈ neighbors g a -> lower x = x).
  { intros a x. unfold neighbors. destruct (g !! a) as [s|] eqn:Ea; simpl.
    - by apply (Hg a s Ea).
    - by intros ?%elem_of_empty. }
  unfold add_edge. rewrite lookup_insert. case_decide as Hk2.
  - intros [= <-]. subst k. split; [done|]. intros x.
    rewrite elem_of_union, elem_of_singleton, neighbors_insert.
    intros [Hx| ->]; [|done]. case_decide; [|by eapply Hn].
    apply elem_of_union in Hx as [Hx| ->%elem_of_singleton]; [by eapply Hn | done].
  - rewrite lookup_insert. case_decide as Hk1; [|apply Hg].
    intros [= <-]. subst k. split; [done|]. intros x.
    rewrite elem_of_union, elem_of_singleton. intros [Hx| ->]; [by eapply Hn | done].
Qed.

Lemma handle_lowercase_keys (st : State) (rq : Request) :
  lowercase_keys st -> lowercase_keys (handle st rq).1.
Proof.
  intros (Hc & Hg & Hl).
  destruct rq as [data|name data|name|query|name1 name2| |name now|]; simpl; try done.
  - destruct (add_contact_cases st data) as [(_ & -> & _)|(_ & ->)]; [done|].
    split; [|done]. intros k. cbn [fst contacts]. rewrite lookup_insert.
    case_decide as Hk; [intros _; subst k; apply lower_idem | apply Hc].
  - destruct (update_contact_cases st name data)
      as [(_ & -> & _)|[(_ & -> & _)|(c & _ & _ & ->)]]; try done.
    split; [|done]. intros k. cbn [contacts]. rewrite lookup_insert.
    case_decide as Hk; [intros _; subst k; apply lower_idem | apply Hc].
  - destruct (delete_contact_frame st name) as (Hlog & Hrel & _ & Hcon).
    unfold lowercase_keys. rewrite Hlog, Hrel. split; [|done]. intros k Hk. apply Hc.
    destruct (decide (k = lower name)) as [->|Hne]; [|by rewrite <- Hcon].
    rewrite delete_contact_removes in Hk. by destruct Hk.
  - unfold add_relationship.
    destruct (contacts st !! lower name1), (contacts st !! lower name2); try done.
    split; [done|]. split; [|done]. cbn [fst relationships]. intros k ns.
    apply add_edge_lowercase; auto using lower_idem.
  - unfold log_call. destruct (contacts st !! lower name); [|done].
    split; [done|]. split; [done|]. intros k. cbn [fst call_log]. rewrite lookup_insert.
    case_decide as Hk; [intros _; subst k; apply lower_idem | apply Hl].
Qed.

(** X23: in every state reached from an empty start, the keys of the
    contacts, of the graph and of the call log, and all neighbours, are
    lowercase strings, so no two entries differ by case only. *)
Theorem keys_are_lowercase (rqs : list Request) : lowercase_keys (run init rqs).
Proof.
  induction rqs as [|rq rqs IH] using rev_ind.
  - split; [|split].
    + intros k [c Hc]. simpl in Hc. by rewrite lookup_empty in Hc.
    + intros k ns Hk. simpl in Hk. by rewrite lookup_empty in Hk.
    + intros k [c Hc]. simpl in Hc. by rewrite lookup_empty in Hc.
  - unfold run in *. rewrite fold_left_app. simpl. by apply handle_lowercase_keys.
Qed.

Lemma run_search_mono (rqs : list Request) (st : State) (P w : string) :
  w ∈ Trie.search (trie st) P -> w ∈ Trie.search (trie (run st rqs)) P.
Proof.
  revert st. induction rqs as [|rq rqs IH]; intros st Hw; [done|].
  change (run st (rq :: rqs)) with (run (handle st rq).1 rqs). apply IH.
  destruct (handle_trie st rq) as [->|[N ->]]; [done|]. by apply search_insert_mono.
Qed.

(** X24: no request takes a word out of the trie: what [Trie.search]
    returns for a prefix in some state, it still returns after any further
    sequence of requests, deletions included. *)
Theorem trie_never_forgets (st : State) (rqs : list Request) (P w : string) :
  w ∈ Trie.search (trie st) P -> w ∈ Trie.search (trie (run st rqs)) P.
Proof. apply run_search_mono. Qed.

Lemma trie_never_forgets_witness :
  "alice" ∈ Trie.search
              (trie (run with_alice [DELETE_contacts "alice"; POST_contacts bob_data])) "al".
Proof.
  apply (trie_never_forgets with_alice [DELETE_contacts "alice"; POST_contacts bob_data]).
  by left.
Defined.
